(** * Tree search/filter of the JSON explorer (src/App.tsx)

    A shallow embedding of [filterTree], of the memo that calls it
    (the [useMemo] computing [filteredJson] and [matched]) and of the
    [shouldExpandNodeInitially] callback handed to the tree viewer.

    Modelling conventions.
    - A JavaScript string is a Rocq [string]; [toLowerCase] and [trim] act on
      the ASCII range (letters A-Z, the six ASCII white-space characters).
    - A JavaScript value is a [value].  An object is the list of its own
      enumerable properties in the order [for ... in] visits them; an array
      is the list of its slots, [None] being a hole.
    - The [matches] array that [filterTree] mutates is threaded through the
      calls: every call takes the list and returns the extended list. *)

From Stdlib Require Import List Bool Arith NArith ZArith QArith Lia.
From Stdlib Require Import Ascii String DecimalString DecimalN Sorted.
Import ListNotations.

Local Open Scope string_scope.
Local Open Scope list_scope.

(** ** Strings *)

Definition lower_ascii (c : ascii) : ascii :=
  let n := nat_of_ascii c in
  if (65 <=? n)%nat && (n <=? 90)%nat then ascii_of_nat (n + 32) else c.

(** [s.toLowerCase()] *)
Fixpoint toLowerCase (s : string) : string :=
  match s with
  | EmptyString => EmptyString
  | String c r => String (lower_ascii c) (toLowerCase r)
  end.

(** [s.includes(t)]: [t] occurs in [s] as a contiguous substring. *)
Fixpoint includes (s t : string) : bool :=
  if String.prefix t s then true
  else match s with
       | EmptyString => false
       | String _ r => includes r t
       end.

(** [s.startsWith(p)] *)
Definition startsWith (s p : string) : bool := String.prefix p s.

(** [l.join('.')] *)
Definition join (sep : string) (l : list string) : string := String.concat sep l.

Definition is_space (c : ascii) : bool :=
  let n := nat_of_ascii c in
  ((9 <=? n)%nat && (n <=? 13)%nat) || (n =? 32)%nat.

Fixpoint trimStart (s : string) : string :=
  match s with
  | EmptyString => EmptyString
  | String c r => if is_space c then trimStart r else s
  end.

Fixpoint trimEnd (s : string) : string :=
  match s with
  | EmptyString => EmptyString
  | String c r =>
      match trimEnd r with
      | EmptyString => if is_space c then EmptyString else String c EmptyString
      | r' => String c r'
      end
  end.

(** [s.trim()] *)
Definition trim (s : string) : string := trimEnd (trimStart s).

(** ** Values *)

(** A key-path: the keys from the root down to a node (array indices in
    decimal). *)
Definition key_path := list string.

Unset Elimination Schemes.
Inductive value : Type :=
| VUndef
| VNull
| VBool (b : bool)
| VNum (q : Q)
| VStr (s : string)
| VObj (props : list (string * value))
| VArr (slots : list (option value)).
Set Elimination Schemes.

(** Truthiness, as tested by [!x] and [x || y]. *)
Definition truthy (v : value) : bool :=
  match v with
  | VUndef | VNull => false
  | VBool b => b
  | VNum q => negb (Qnum q =? 0)%Z
  | VStr s => negb (s =? "")
  | VObj _ | VArr _ => true
  end.

(** [x != null] *)
Definition notNull (v : value) : bool :=
  match v with
  | VUndef | VNull => false
  | _ => true
  end.

(** *** Property keys *)

(** The key under which [for ... in] reports slot [i] of an array. *)
Definition key_of_index (i : nat) : string :=
  NilEmpty.string_of_uint (N.to_uint (N.of_nat i)).

(** A key is an array index when it is the canonical decimal form of a
    number below 2^32 - 1. *)
Definition index_of_key (k : string) : option N :=
  match NilEmpty.uint_of_string k with
  | Some d =>
      let n := N.of_uint d in
      if (NilEmpty.string_of_uint (N.to_uint n) =? k) && (n <? 4294967295)%N
      then Some n else None
  | None => None
  end.

(** [precedes a b]: in the property order of an object, key [a] may stand
    somewhere before key [b].  Array-index keys come first, in increasing
    numeric order; the other keys follow in creation order. *)
Definition precedes (a b : string) : bool :=
  negb (a =? b) &&
  match index_of_key b with
  | None => true
  | Some j => match index_of_key a with
              | Some i => (i <? j)%N
              | None => false
              end
  end.

(** *** Enumeration: [for (const key in obj)] with [val = obj[key]] *)

Fixpoint arr_entries (i : nat) (l : list (option value)) : list (string * value) :=
  match l with
  | [] => []
  | None :: r => arr_entries (S i) r
  | Some v :: r => (key_of_index i, v) :: arr_entries (S i) r
  end.

Definition entries (v : value) : list (string * value) :=
  match v with
  | VObj kvs => kvs
  | VArr l => arr_entries 0 l
  | _ => []
  end.

(** *** Assignment: [result[key] = x] *)

(** The one key an assignment does not turn into a property: for
    [__proto__] the assignment reaches the setter that every object and
    array inherits from [Object.prototype]; no own property is created. *)
Definition assignable (k : string) : bool := negb (k =? "__proto__").

(** Defining or updating the own property [key] of an object: an existing
    property keeps its place; a new array-index key goes before the first
    larger index or named key; any other new key goes last. *)
Fixpoint obj_set (kvs : list (string * value)) (key : string) (x : value)
  : list (string * value) :=
  match kvs with
  | [] => [(key, x)]
  | (k, v) :: rest =>
      if k =? key then (k, x) :: rest
      else if precedes k key then (k, v) :: obj_set rest key x
      else (key, x) :: (k, v) :: rest
  end.

(** On an array: slot [i] is written, the array growing with holes when [i]
    is past its end. *)
Fixpoint arr_set (l : list (option value)) (i : nat) (x : value)
  : list (option value) :=
  match i, l with
  | O, [] => [Some x]
  | O, _ :: r => Some x :: r
  | S i', [] => None :: arr_set [] i' x
  | S i', h :: r => h :: arr_set r i' x
  end.

(** [result[key] = x] on the [result] of [filterTree].  With the key
    [__proto__] the own properties stay as they are (the setter makes [x]
    the prototype of [result] when [x] is an object, an array or null; a
    [value] holds own properties only, and a later assignment defines its
    property whatever the prototype is). *)
Definition set (o : value) (key : string) (x : value) : value :=
  match o with
  | VObj kvs => if assignable key then VObj (obj_set kvs key x) else o
  | VArr l =>
      match index_of_key key with
      | Some i => VArr (arr_set l (N.to_nat i) x)
      | None => o
      end
  | _ => o
  end.

(** ** filterTree *)

(** The state of the [for] loop: [result], [hasMatchHere], [matches]. *)
Definition loop_state : Type := value * bool * list key_path.

(** One iteration of the loop body; [call] is the recursive call
    [filterTree(val, term, _, _)]. *)
Definition loopBody (call : key_path -> list key_path -> value * list key_path)
    (term : string) (path : key_path) (key : string) (val : value)
    (st : loop_state) : loop_state :=
  let '(result, hasMatchHere, matches) := st in
  let newPath := path ++ [key] in
  let keyMatches := includes (toLowerCase key) term in
  let '(filtered, matches) := call newPath matches in
  if keyMatches || notNull filtered then
    (set result key (if keyMatches then val else filtered),
     true,
     if keyMatches then matches ++ [newPath] else matches)
  else (result, hasMatchHere, matches).

(** [return hasMatchHere ? result : null] *)
Definition loopReturn (st : loop_state) : value * list key_path :=
  let '(result, hasMatchHere, matches) := st in
  (if hasMatchHere then result else VNull, matches).

Fixpoint filterTree (obj : value) (term : string) (path : key_path)
    (matches : list key_path) {struct obj} : value * list key_path :=
  match obj with
  | VStr s =>
      if includes (toLowerCase s) term then (obj, matches ++ [path])
      else (VNull, matches)
  | VObj kvs =>
      loopReturn
        ((fix loop (kvs : list (string * value)) (st : loop_state) : loop_state :=
            match kvs with
            | [] => st
            | (key, val) :: rest =>
                loop rest (loopBody (filterTree val term) term path key val st)
            end) kvs (VObj [], false, matches))
  | VArr l =>
      loopReturn
        ((fix loop (l : list (option value)) (i : nat) (st : loop_state)
            : loop_state :=
            match l with
            | [] => st
            | None :: rest => loop rest (S i) st
            | Some val :: rest =>
                loop rest (S i)
                  (loopBody (filterTree val term) term path (key_of_index i) val st)
            end) l 0%nat (VArr [], false, matches))
  | _ => (VNull, matches)
  end.

(** ** The memo computing [filteredJson] and [matched] *)

Record memo : Type := { filteredJson : value; matched : list key_path }.

Definition useMemo (jsonData : value) (searchTerm : string) : memo :=
  let term := toLowerCase (trim searchTerm) in
  if (term =? "") || negb (truthy jsonData) then
    {| filteredJson := jsonData; matched := [] |}
  else
    let '(filtered, matches) := filterTree jsonData term [] [] in
    {| filteredJson := if truthy filtered then filtered else VObj [];
       matched := matches |}.

(** ** shouldExpandNodeInitially *)

Definition shouldExpandNodeInitially (searchTerm : string)
    (matchedPaths : list key_path) (keyPath : key_path) : bool :=
  if negb (searchTerm =? "") then
    existsb (fun mp =>
               let pathStr := join "." mp in
               let keyPathStr := join "." keyPath in
               startsWith pathStr keyPathStr) matchedPaths
  else (List.length keyPath =? 1)%nat.

(** ** Notions used to state the properties *)

(** The key test of the loop: [key.toLowerCase().includes(term)]. *)
Definition keyMatches (term key : string) : bool :=
  includes (toLowerCase key) term.

(** The value [filterTree] returns, for whatever path and match list. *)
Definition filtered_of (term : string) (val : value) : value :=
  fst (filterTree val term [] []).

(** What the loop stores under [key]: the original value on a key match,
    the filtered value when that is not null, nothing otherwise. *)
Definition keep (term key : string) (val : value) : option value :=
  if keyMatches term key then Some val
  else if notNull (filtered_of term val) then Some (filtered_of term val)
  else None.

Definition kept_entry (term : string) (kv : string * value)
  : list (string * value) :=
  match keep term (fst kv) (snd kv) with
  | Some x => [(fst kv, x)]
  | None => []
  end.

(** The entries that survive the loop, in the order of the loop. *)
Definition kept (term : string) (es : list (string * value))
  : list (string * value) :=
  flat_map (kept_entry term) es.

Definition is_container (v : value) : bool :=
  match v with
  | VObj _ | VArr _ => true
  | _ => false
  end.


(** [isArray ? [] : {}] *)
Definition emptyLike (v : value) : value :=
  match v with
  | VArr _ => VArr []
  | _ => VObj []
  end.

Definition same_kind (a b : value) : bool :=
  match a, b with
  | VObj _, VObj _ | VArr _, VArr _ => true
  | _, _ => false
  end.

Fixpoint assoc (k : string) (es : list (string * value)) : option value :=
  match es with
  | [] => None
  | (k', v) :: r => if k' =? k then Some v else assoc k r
  end.

(** The value stored under key [k] of a container. *)
Definition child (v : value) (k : string) : option value :=
  assoc k (entries v).

(** The node a key-path leads to. *)
Fixpoint lookup (v : value) (p : key_path) : option value :=
  match p with
  | [] => Some v
  | k :: p' =>
      match child v k with
      | Some c => lookup c p'
      | None => None
      end
  end.

(** *** Documents

    The values the filter is run on are those a JSON parse builds: the keys
    of an object are pairwise distinct and stand in property order (array
    indices in increasing order, then the other keys), and an array has at
    most 2^32 - 1 slots. *)

Fixpoint canonical (ks : list string) : bool :=
  match ks with
  | [] => true
  | k :: r => forallb (precedes k) r && canonical r
  end.

Fixpoint wf (v : value) : bool :=
  match v with
  | VObj kvs =>
      canonical (map fst kvs) && forallb (fun kv => wf (snd kv)) kvs
  | VArr l =>
      (N.of_nat (List.length l) <=? 4294967295)%N
      && forallb (fun o => match o with Some x => wf x | None => true end) l
  | _ => true
  end.

(** The entries an assignment has turned into own properties. *)
Definition own (es : list (string * value)) : list (string * value) :=
  filter (fun kv => assignable (fst kv)) es.

(** No object of the document, at any depth, has a key [__proto__]. *)
Fixpoint proto_free (v : value) : bool :=
  match v with
  | VObj kvs =>
      forallb (fun kv => assignable (fst kv) && proto_free (snd kv)) kvs
  | VArr l =>
      forallb (fun o => match o with Some x => proto_free x | None => true end) l
  | _ => true
  end.

(** *** The match list, as the specification describes it

    Depth first, every container in its iteration order; for each entry,
    first the matches found inside its value, then the entry's own path when
    its key matches. *)

Definition key_hit (term : string) (path : key_path) (key : string)
  : list key_path :=
  if keyMatches term key then [path ++ [key]] else [].

Fixpoint dfs_match_paths (obj : value) (term : string) (path : key_path)
    {struct obj} : list key_path :=
  match obj with
  | VStr s => if includes (toLowerCase s) term then [path] else []
  | VObj kvs =>
      (fix each (kvs : list (string * value)) : list key_path :=
         match kvs with
         | [] => []
         | (key, val) :: rest =>
             (dfs_match_paths val term (path ++ [key]) ++ key_hit term path key)
             ++ each rest
         end) kvs
  | VArr l =>
      (fix each (l : list (option value)) (i : nat) : list key_path :=
         match l with
         | [] => []
         | None :: rest => each rest (S i)
         | Some val :: rest =>
             (dfs_match_paths val term (path ++ [key_of_index i])
                ++ key_hit term path (key_of_index i))
             ++ each rest (S i)
         end) l 0%nat
  | _ => []
  end.

(** The matches one entry contributes. *)
Definition entry_paths (term : string) (path : key_path) (kv : string * value)
  : list key_path :=
  dfs_match_paths (snd kv) term (path ++ [fst kv]) ++ key_hit term path (fst kv).

(** *** Pruned tree as a part of the original *)


(** The loop over the entries, without the recursive calls: what it leaves in
    [result] and in [hasMatchHere]. *)
Definition build (term : string) (es : list (string * value)) (result : value)
  : value :=
  fold_left (fun r kv => match keep term (fst kv) (snd kv) with
                         | Some x => set r (fst kv) x
                         | None => r
                         end) es result.

Definition any_kept (term : string) (es : list (string * value)) : bool :=
  existsb (fun kv => match keep term (fst kv) (snd kv) with
                     | Some _ => true
                     | None => false
                     end) es.

Definition loop_step (term : string) (path : key_path) (st : loop_state)
    (kv : string * value) : loop_state :=
  loopBody (filterTree (snd kv) term) term path (fst kv) (snd kv) st.

(** [ready r post]: the partial result [r] takes each of the keys still to
    come, in their order, as a new last entry. *)
Definition ready (r : value) (post : list (string * value)) : Prop :=
  match r with
  | VObj acc =>
      StronglySorted (fun a b => precedes a b = true)
        (map fst acc ++ map fst post)
  | VArr acc =>
      exists i l, post = arr_entries i l /\ (List.length acc <= i)%nat
                  /\ (N.of_nat (i + List.length l) <= 4294967295)%N
  | _ => False
  end.

(** [filterTree] returns its value whatever the path and the match list,
    and appends [dfs_match_paths] to the match list. *)
Definition splits (term : string) (c : value) : Prop :=
  forall path ms,
    filterTree c term path ms =
    (filtered_of term c, ms ++ dfs_match_paths c term path).


(** *** Statements of the specification that the code does not meet *)


(** The claim as the specification states it: under a matching key, the
    recursive call leaves the match list as it found it. *)
Definition key_match_call_appends_nothing (obj : value) (term : string)
  : Prop :=
  forall k v path ms,
    In (k, v) (entries obj) ->
    keyMatches term k = true ->
    snd (filterTree v term (path ++ [k]) ms) = ms.

(** ** Loading a file: [extractSection], [handleFile] and the reader callbacks *)

(** What a [try] block can catch here: the [SyntaxError] of [JSON.parse]
    with its message, the [TypeError] of reading property [key] of [null] or
    [undefined], and the [TypeError] of [Object.values] on [null] or
    [undefined]. *)
Inductive exn : Type :=
| SyntaxError (message : string)
| TypeError_read (v : value) (key : string)
| TypeError_object (v : value).

(** A computation that returns or throws. *)
Definition throws (A : Type) : Type := (exn + A)%type.

Definition bind {A B : Type} (c : throws A) (k : A -> throws B) : throws B :=
  match c with
  | inl err => inl err
  | inr a => k a
  end.

Notation "x <- c ;; k" := (bind c (fun x => k))
  (at level 61, c at next level, right associativity).

(** [l.map(f)] with an [f] that may throw: the first exception ends it. *)
Fixpoint mapM {A B : Type} (f : A -> throws B) (l : list A)
  : throws (list B) :=
  match l with
  | [] => inr []
  | x :: r => y <- f x ;; ys <- mapM f r ;; inr (y :: ys)
  end.

(** The one-character strings of a string. *)
Fixpoint chars (s : string) : list value :=
  match s with
  | EmptyString => []
  | String c r => VStr (String c EmptyString) :: chars r
  end.

(** [v[key]] and [v.key].  Own properties only: the names the prototypes
    define ([toString], [constructor] and the like) are not described, and
    the program reads none of them. *)
Definition getProp (v : value) (key : string) : throws value :=
  match v with
  | VUndef | VNull => inl (TypeError_read v key)
  | VBool _ | VNum _ => inr VUndef
  | VStr s =>
      inr match index_of_key key with
          | Some i =>
              match String.get (N.to_nat i) s with
              | Some c => VStr (String c EmptyString)
              | None => VUndef
              end
          | None =>
              if key =? "length"
              then VNum (inject_Z (Z.of_nat (String.length s)))
              else VUndef
          end
  | VObj kvs =>
      inr match assoc key kvs with
          | Some x => x
          | None => VUndef
          end
  | VArr l =>
      inr match index_of_key key with
          | Some i =>
              match nth_error l (N.to_nat i) with
              | Some (Some x) => x
              | _ => VUndef
              end
          | None =>
              if key =? "length"
              then VNum (inject_Z (Z.of_nat (List.length l)))
              else VUndef
          end
  end.

(** [item?.[field]] *)
Definition optionalProp (item : value) (field : string) : throws value :=
  if notNull item then getProp item field else inr VUndef.

(** [Object.values(v)] *)
Definition Object_values (v : value) : throws (list value) :=
  match v with
  | VUndef | VNull => inl (TypeError_object v)
  | VStr s => inr (chars s)
  | _ => inr (map snd (entries v))
  end.

(** [a || b] *)
Definition orElse (a b : value) : value := if truthy a then a else b.

(** The [try] block of [extractSection]; [Array.isArray(values)] is true of
    every result of [Object.values]. *)
Definition extractSection_try (json : value) (key field : string)
  : throws (list value) :=
  section <- getProp json key ;;
  if negb (truthy section) then inr []
  else
    values <- Object_values section ;;
    items <- mapM (fun item => optionalProp item field) values ;;
    inr (filter truthy items).

Definition extractSection (json : value) (key field : string) : list value :=
  match extractSection_try json key field with
  | inr names => names
  | inl _ => []
  end.

(** [Object.values(json.user_types || {}).map((d) => d.name || d.display)
      .filter(Boolean)] *)
Definition extractDataTypes (json : value) : throws (list value) :=
  user_types <- getProp json "user_types" ;;
  values <- Object_values (orElse user_types (VObj [])) ;;
  names <- mapM (fun d =>
                   name <- getProp d "name" ;;
                   if truthy name then inr name else getProp d "display")
             values ;;
  inr (filter truthy names).

(** [Object.values(json.api || {}).map((w) => w.properties?.wf_name)
      .filter(Boolean)] *)
Definition extractWorkflows (json : value) : throws (list value) :=
  api <- getProp json "api" ;;
  values <- Object_values (orElse api (VObj [])) ;;
  names <- mapM (fun w =>
                   properties <- getProp w "properties" ;;
                   optionalProp properties "wf_name")
             values ;;
  inr (filter truthy names).

(** The text in the [error] state: ['File too large! Maximum size is 50 MB.'],
    ['Error parsing file: '] followed by the message of the exception, and
    ['Error reading file. Please try again.']. *)
Inductive error_text : Type :=
| FileTooLarge
| ErrorParsing (err : exn)
| ErrorReading.

(** The [useState] cells of [App] (the toasts, which live on timers, apart). *)
Record app_state : Type := {
  st_optionSets : list value;
  st_dataTypes : list value;
  st_pages : list value;
  st_reusableElements : list value;
  st_workflows : list value;
  st_apiNames : list value;
  st_jsonData : value;
  st_error : option error_text;
  st_isDragging : bool;
  st_searchTerm : string;
  st_matchedPaths : list key_path
}.

Definition initial_state : app_state :=
  {| st_optionSets := []; st_dataTypes := []; st_pages := [];
     st_reusableElements := []; st_workflows := []; st_apiNames := [];
     st_jsonData := VNull; st_error := None; st_isDragging := false;
     st_searchTerm := ""; st_matchedPaths := [] |}.

Definition setOptionSets (x : list value) (st : app_state) : app_state :=
  {| st_optionSets := x; st_dataTypes := st_dataTypes st;
     st_pages := st_pages st; st_reusableElements := st_reusableElements st;
     st_workflows := st_workflows st; st_apiNames := st_apiNames st;
     st_jsonData := st_jsonData st; st_error := st_error st;
     st_isDragging := st_isDragging st; st_searchTerm := st_searchTerm st;
     st_matchedPaths := st_matchedPaths st |}.

Definition setDataTypes (x : list value) (st : app_state) : app_state :=
  {| st_optionSets := st_optionSets st; st_dataTypes := x;
     st_pages := st_pages st; st_reusableElements := st_reusableElements st;
     st_workflows := st_workflows st; st_apiNames := st_apiNames st;
     st_jsonData := st_jsonData st; st_error := st_error st;
     st_isDragging := st_isDragging st; st_searchTerm := st_searchTerm st;
     st_matchedPaths := st_matchedPaths st |}.

Definition setPages (x : list value) (st : app_state) : app_state :=
  {| st_optionSets := st_optionSets st; st_dataTypes := st_dataTypes st;
     st_pages := x; st_reusableElements := st_reusableElements st;
     st_workflows := st_workflows st; st_apiNames := st_apiNames st;
     st_jsonData := st_jsonData st; st_error := st_error st;
     st_isDragging := st_isDragging st; st_searchTerm := st_searchTerm st;
     st_matchedPaths := st_matchedPaths st |}.

Definition setReusableElements (x : list value) (st : app_state) : app_state :=
  {| st_optionSets := st_optionSets st; st_dataTypes := st_dataTypes st;
     st_pages := st_pages st; st_reusableElements := x;
     st_workflows := st_workflows st; st_apiNames := st_apiNames st;
     st_jsonData := st_jsonData st; st_error := st_error st;
     st_isDragging := st_isDragging st; st_searchTerm := st_searchTerm st;
     st_matchedPaths := st_matchedPaths st |}.

Definition setWorkflows (x : list value) (st : app_state) : app_state :=
  {| st_optionSets := st_optionSets st; st_dataTypes := st_dataTypes st;
     st_pages := st_pages st; st_reusableElements := st_reusableElements st;
     st_workflows := x; st_apiNames := st_apiNames st;
     st_jsonData := st_jsonData st; st_error := st_error st;
     st_isDragging := st_isDragging st; st_searchTerm := st_searchTerm st;
     st_matchedPaths := st_matchedPaths st |}.

Definition setApiNames (x : list value) (st : app_state) : app_state :=
  {| st_optionSets := st_optionSets st; st_dataTypes := st_dataTypes st;
     st_pages := st_pages st; st_reusableElements := st_reusableElements st;
     st_workflows := st_workflows st; st_apiNames := x;
     st_jsonData := st_jsonData st; st_error := st_error st;
     st_isDragging := st_isDragging st; st_searchTerm := st_searchTerm st;
     st_matchedPaths := st_matchedPaths st |}.

Definition setJsonData (x : value) (st : app_state) : app_state :=
  {| st_optionSets := st_optionSets st; st_dataTypes := st_dataTypes st;
     st_pages := st_pages st; st_reusableElements := st_reusableElements st;
     st_workflows := st_workflows st; st_apiNames := st_apiNames st;
     st_jsonData := x; st_error := st_error st;
     st_isDragging := st_isDragging st; st_searchTerm := st_searchTerm st;
     st_matchedPaths := st_matchedPaths st |}.

Definition setError (x : option error_text) (st : app_state) : app_state :=
  {| st_optionSets := st_optionSets st; st_dataTypes := st_dataTypes st;
     st_pages := st_pages st; st_reusableElements := st_reusableElements st;
     st_workflows := st_workflows st; st_apiNames := st_apiNames st;
     st_jsonData := st_jsonData st; st_error := x;
     st_isDragging := st_isDragging st; st_searchTerm := st_searchTerm st;
     st_matchedPaths := st_matchedPaths st |}.

Definition setIsDragging (x : bool) (st : app_state) : app_state :=
  {| st_optionSets := st_optionSets st; st_dataTypes := st_dataTypes st;
     st_pages := st_pages st; st_reusableElements := st_reusableElements st;
     st_workflows := st_workflows st; st_apiNames := st_apiNames st;
     st_jsonData := st_jsonData st; st_error := st_error st;
     st_isDragging := x; st_searchTerm := st_searchTerm st;
     st_matchedPaths := st_matchedPaths st |}.

Definition setSearchTerm (x : string) (st : app_state) : app_state :=
  {| st_optionSets := st_optionSets st; st_dataTypes := st_dataTypes st;
     st_pages := st_pages st; st_reusableElements := st_reusableElements st;
     st_workflows := st_workflows st; st_apiNames := st_apiNames st;
     st_jsonData := st_jsonData st; st_error := st_error st;
     st_isDragging := st_isDragging st; st_searchTerm := x;
     st_matchedPaths := st_matchedPaths st |}.

Definition setMatchedPaths (x : list key_path) (st : app_state) : app_state :=
  {| st_optionSets := st_optionSets st; st_dataTypes := st_dataTypes st;
     st_pages := st_pages st; st_reusableElements := st_reusableElements st;
     st_workflows := st_workflows st; st_apiNames := st_apiNames st;
     st_jsonData := st_jsonData st; st_error := st_error st;
     st_isDragging := st_isDragging st; st_searchTerm := st_searchTerm st;
     st_matchedPaths := x |}.

(** A [File], as far as [handleFile] looks at it. *)
Record File : Type := { file_size : N }.

(** [handleFile] up to [reader.readAsText(file)]; the boolean tells whether
    the read was started. *)
Definition handleFile (file : option File) (st : app_state)
  : app_state * bool :=
  let st := setError None st in
  let st := setJsonData VNull st in
  let st := setSearchTerm "" st in
  let st := setMatchedPaths [] st in
  match file with
  | None => (st, false)
  | Some f =>
      if (50 * 1024 * 1024 <? file_size f)%N
      then (setError (Some FileTooLarge) st, false)
      else (st, true)
  end.

(** [reader.onload]; [parsed] is the outcome of [JSON.parse(content)]. *)
Definition onload (parsed : throws value) (st : app_state) : app_state :=
  match parsed with
  | inl err => setError (Some (ErrorParsing err)) st
  | inr json =>
      let st := setJsonData json st in
      let st := setOptionSets
                  (extractSection json "option_sets" "display") st in
      match extractDataTypes json with
      | inl err => setError (Some (ErrorParsing err)) st
      | inr extractedDataTypes =>
          let st := setDataTypes extractedDataTypes st in
          let st := setPages (extractSection json "pages" "name") st in
          let st := setReusableElements
                      (extractSection json "element_definitions" "name") st in
          match extractWorkflows json with
          | inl err => setError (Some (ErrorParsing err)) st
          | inr extractedWorkflows =>
              let st := setWorkflows extractedWorkflows st in
              match extractWorkflows json with
              | inl err => setError (Some (ErrorParsing err)) st
              | inr extractedApiNames => setApiNames extractedApiNames st
              end
          end
      end
  end.

(** [reader.onerror] *)
Definition onerror (st : app_state) : app_state :=
  setError (Some ErrorReading) st.

(** [handleDrop], with [file = e.dataTransfer.files[0]]. *)
Definition handleDrop (file : option File) (st : app_state)
  : app_state * bool :=
  handleFile file (setIsDragging false st).

(** [const hasData = pages.length > 0 || jsonData !== null] *)
Definition hasData (st : app_state) : bool :=
  (0 <? List.length (st_pages st))%nat
  || match st_jsonData st with VNull => false | _ => true end.

(** What can happen to the state: a file is chosen or dropped, the reader
    reports, the search box changes ([onChange], the clear button,
    [handleItemClick]), the effect copies [matched] to [matchedPaths], the
    drop zone is entered or left. *)
Inductive event : Type :=
| ChooseFile (file : option File)
| DropFile (file : option File)
| ReaderLoad (parsed : throws value)
| ReaderError
| Search (term : string)
| SyncMatches
| DragOver
| DragLeave.

Definition step (st : app_state) (e : event) : app_state :=
  match e with
  | ChooseFile file => fst (handleFile file st)
  | DropFile file => fst (handleDrop file st)
  | ReaderLoad parsed => onload parsed st
  | ReaderError => onerror st
  | Search term => setSearchTerm term st
  | SyncMatches =>
      setMatchedPaths
        (matched (useMemo (st_jsonData st) (st_searchTerm st))) st
  | DragOver => setIsDragging true st
  | DragLeave => setIsDragging false st
  end.

Definition run (events : list event) : app_state :=
  fold_left step events initial_state.

(** A parsed document loads without a [TypeError]: it is not null, and no
    value of its [user_types] or of its [api] is null or undefined. *)
Definition section_values (json : value) (key : string) : list value :=
  match getProp json key with
  | inr section =>
      match Object_values (orElse section (VObj [])) with
      | inr values => values
      | inl _ => []
      end
  | inl _ => []
  end.

Definition loads_clean (json : value) : bool :=
  notNull json
  && forallb notNull (section_values json "user_types")
  && forallb notNull (section_values json "api").

(** [title.toLowerCase().replace(/\s+/g, '_')], the name [renderSection]
    hands to [downloadJSON]: every run of white space becomes one underscore.
    [inRun] tells that the character before was white space. *)
Fixpoint replaceWhitespace (inRun : bool) (s : string) : string :=
  match s with
  | EmptyString => EmptyString
  | String c r =>
      if is_space c then
        if inRun then replaceWhitespace true r
        else String "_" (replaceWhitespace true r)
      else String c (replaceWhitespace false r)
  end.

(** [a.download = `${filename}.json`] *)
Definition downloadFileName (title : string) : string :=
  String.append (replaceWhitespace false (toLowerCase title)) ".json".

(** ** Induction on values *)

Section ValueInduction.
Variable P : value -> Prop.
Hypothesis P_undef : P VUndef.
Hypothesis P_null : P VNull.
Hypothesis P_bool : forall b, P (VBool b).
Hypothesis P_num : forall q, P (VNum q).
Hypothesis P_str : forall s, P (VStr s).
Hypothesis P_obj :
  forall kvs, Forall (fun kv => P (snd kv)) kvs -> P (VObj kvs).
Hypothesis P_arr :
  forall l, Forall (fun o => match o with Some x => P x | None => True end) l ->
            P (VArr l).

Fixpoint value_ind (v : value) : P v :=
  match v with
  | VUndef => P_undef
  | VNull => P_null
  | VBool b => P_bool b
  | VNum q => P_num q
  | VStr s => P_str s
  | VObj kvs =>
      P_obj kvs
        ((fix props (kvs : list (string * value))
            : Forall (fun kv => P (snd kv)) kvs :=
            match kvs with
            | [] => Forall_nil _
            | kv :: r => Forall_cons kv (value_ind (snd kv)) (props r)
            end) kvs)
  | VArr l =>
      P_arr l
        ((fix slots (l : list (option value))
            : Forall (fun o => match o with Some x => P x | None => True end) l :=
            match l with
            | [] => Forall_nil _
            | None :: r => Forall_cons None I (slots r)
            | Some x :: r => Forall_cons (Some x) (value_ind x) (slots r)
            end) l)
  end.
End ValueInduction.

(** * Properties *)

(** ** Entries of a sequence *)

Lemma arr_entries_In (l : list (option value)) :
  forall i k v,
    In (k, v) (arr_entries i l) <->
    exists j, k = key_of_index (i + j) /\ nth_error l j = Some (Some v).
Proof.
  induction l as [|o r IH]; intros i k v; simpl.
  - split; [tauto|]. intros [j [_ H]]. destruct j; discriminate.
  - destruct o as [x|]; simpl; rewrite ?IH; split.
    + intros [H | [j [Hk Hj]]].
      * inversion H; subst. exists 0%nat. rewrite Nat.add_0_r. auto.
      * exists (S j). rewrite Nat.add_succ_r. auto.
    + intros [[|j] [Hk Hj]]; simpl in Hj.
      * left. inversion Hj; subst. rewrite Nat.add_0_r. reflexivity.
      * right. exists j. rewrite Nat.add_succ_r in Hk. auto.
    + intros [j [Hk Hj]]. exists (S j). rewrite Nat.add_succ_r. auto.
    + intros [[|j] [Hk Hj]]; simpl in Hj; [discriminate|].
      exists j. rewrite Nat.add_succ_r in Hk. auto.
Qed.

(** Induction on a value through its entries. *)
Lemma value_entries_ind (P : value -> Prop) :
  (forall v, (forall k c, In (k, c) (entries v) -> P c) -> P v) ->
  forall v, P v.
Proof.
  intros step. induction v using value_ind; apply step; simpl; try tauto.
  - intros k c Hin. rewrite Forall_forall in H. apply (H (k, c) Hin).
  - intros k c Hin. apply arr_entries_In in Hin. destruct Hin as [j [_ Hj]].
    rewrite Forall_forall in H. apply nth_error_In in Hj. apply (H _ Hj).
Qed.

(** ** Keys *)

Lemma key_of_index_inj i j : key_of_index i = key_of_index j -> i = j.
Proof.
  unfold key_of_index. intros H.
  apply (f_equal NilEmpty.uint_of_string) in H.
  rewrite !NilEmpty.usu in H. inversion H as [H'].
  apply Unsigned.to_uint_inj in H'. lia.
Qed.

Lemma index_of_key_of_index i :
  (N.of_nat i < 4294967295)%N ->
  index_of_key (key_of_index i) = Some (N.of_nat i).
Proof.
  intros Hb. unfold index_of_key, key_of_index.
  rewrite NilEmpty.usu. cbv zeta. rewrite Unsigned.of_to.
  rewrite String.eqb_refl. apply N.ltb_lt in Hb. rewrite Hb. reflexivity.
Qed.

Lemma precedes_neq a b : precedes a b = true -> a <> b.
Proof.
  unfold precedes. intros H Heq. subst.
  rewrite String.eqb_refl in H. discriminate.
Qed.

Lemma precedes_index i j :
  (i < j)%nat -> (N.of_nat j < 4294967295)%N ->
  precedes (key_of_index i) (key_of_index j) = true.
Proof.
  intros Hlt Hb. unfold precedes.
  rewrite !index_of_key_of_index by lia.
  destruct (String.eqb_spec (key_of_index i) (key_of_index j)) as [E|_].
  - apply key_of_index_inj in E. lia.
  - simpl. apply N.ltb_lt. lia.
Qed.

(** ** The loops of [filterTree] as folds over the entries *)

Lemma filterTree_obj_fold kvs term path ms :
  filterTree (VObj kvs) term path ms =
  loopReturn (fold_left (loop_step term path) kvs (VObj [], false, ms)).
Proof.
  simpl. f_equal. generalize (VObj [], false, ms).
  induction kvs as [|[k v] r IH]; intros st; simpl; [reflexivity|].
  rewrite IH. reflexivity.
Qed.

Lemma filterTree_arr_fold l term path ms :
  filterTree (VArr l) term path ms =
  loopReturn (fold_left (loop_step term path) (arr_entries 0 l)
                (VArr [], false, ms)).
Proof.
  simpl. f_equal. generalize (VArr [], false, ms). generalize 0%nat.
  induction l as [|[x|] r IH]; intros i st; simpl; [reflexivity| |]; rewrite IH;
    reflexivity.
Qed.

Lemma filterTree_container obj term path ms :
  is_container obj = true ->
  filterTree obj term path ms =
  loopReturn (fold_left (loop_step term path) (entries obj)
                (emptyLike obj, false, ms)).
Proof.
  destruct obj; try discriminate; intros _.
  - apply filterTree_obj_fold.
  - apply filterTree_arr_fold.
Qed.

Lemma dfs_match_paths_container obj term path :
  is_container obj = true ->
  dfs_match_paths obj term path = flat_map (entry_paths term path) (entries obj).
Proof.
  destruct obj as [| | | | |kvs|l]; try discriminate; intros _; simpl.
  - induction kvs as [|[k v] r IH]; simpl; [reflexivity|].
    rewrite IH. reflexivity.
  - generalize 0%nat.
    induction l as [|[x|] r IH]; intros i; simpl; [reflexivity| |]; rewrite IH;
      reflexivity.
Qed.

Lemma entries_container obj kv :
  In kv (entries obj) -> is_container obj = true.
Proof. destruct obj; simpl; tauto. Qed.

(** ** The value and the match list, separately *)

Lemma loop_step_split term path r has ms k v :
  splits term v ->
  loop_step term path (r, has, ms) (k, v) =
  (match keep term k v with Some x => set r k x | None => r end,
   has || match keep term k v with Some _ => true | None => false end,
   ms ++ entry_paths term path (k, v)).
Proof.
  intros Hv. unfold loop_step, loopBody, entry_paths, key_hit, keep; simpl.
  rewrite Hv. fold (keyMatches term k).
  destruct (keyMatches term k); simpl.
  - rewrite orb_true_r, <- app_assoc. reflexivity.
  - destruct (notNull (filtered_of term v)); simpl.
    + rewrite orb_true_r, app_nil_r. reflexivity.
    + rewrite orb_false_r, app_nil_r. reflexivity.
Qed.

Lemma fold_loop_split term path es :
  (forall k c, In (k, c) es -> splits term c) ->
  forall r has ms,
    fold_left (loop_step term path) es (r, has, ms) =
    (build term es r, has || any_kept term es,
     ms ++ flat_map (entry_paths term path) es).
Proof.
  induction es as [|[k v] es IH]; intros Hes r has ms.
  - simpl. rewrite orb_false_r, app_nil_r. reflexivity.
  - cbn [fold_left].
    rewrite loop_step_split by (apply (Hes k v); left; reflexivity).
    rewrite IH by (intros k' c' Hin; apply (Hes k' c'); right; exact Hin).
    unfold build, any_kept; simpl. rewrite orb_assoc, <- app_assoc.
    reflexivity.
Qed.

Lemma filterTree_splits term obj : splits term obj.
Proof.
  induction obj as [obj IH] using value_entries_ind.
  assert (Hc : is_container obj = true ->
               forall path ms,
                 filterTree obj term path ms =
                 (if any_kept term (entries obj)
                  then build term (entries obj) (emptyLike obj) else VNull,
                  ms ++ dfs_match_paths obj term path)).
  { intros C path ms. rewrite (filterTree_container _ _ _ _ C).
    rewrite (fold_loop_split term path (entries obj) IH).
    rewrite (dfs_match_paths_container _ _ _ C). reflexivity. }
  intros path ms. unfold filtered_of.
  destruct obj as [| | | |s|kvs|l];
    try (simpl; rewrite app_nil_r; reflexivity).
  - simpl. destruct (includes (toLowerCase s) term); simpl;
      rewrite ?app_nil_r; reflexivity.
  - rewrite (Hc eq_refl path ms), (Hc eq_refl [] []). reflexivity.
  - rewrite (Hc eq_refl path ms), (Hc eq_refl [] []). reflexivity.
Qed.

Lemma filterTree_eq obj term path ms :
  filterTree obj term path ms =
  (filtered_of term obj, ms ++ dfs_match_paths obj term path).
Proof. apply filterTree_splits. Qed.

Lemma filtered_of_container term obj :
  is_container obj = true ->
  filtered_of term obj =
  if any_kept term (entries obj)
  then build term (entries obj) (emptyLike obj) else VNull.
Proof.
  intros C. unfold filtered_of.
  rewrite (filterTree_container _ _ _ _ C).
  rewrite (fold_loop_split term [] (entries obj))
    by (intros; apply filterTree_splits).
  reflexivity.
Qed.

Lemma filtered_of_str term s :
  filtered_of term (VStr s) =
  if includes (toLowerCase s) term then VStr s else VNull.
Proof.
  unfold filtered_of; simpl.
  destruct (includes (toLowerCase s) term); reflexivity.
Qed.

Lemma any_kept_false term es : any_kept term es = false <-> kept term es = [].
Proof.
  unfold any_kept, kept, kept_entry.
  induction es as [|[k v] es IH]; simpl; [tauto|].
  destruct (keep term k v); simpl.
  - split; discriminate.
  - exact IH.
Qed.

(** ** Assignment at the next key appends an entry *)

Section Sorted.
Variable R : string -> string -> Prop.

Lemma sorted_app_drop A k B :
  StronglySorted R (A ++ k :: B) -> StronglySorted R (A ++ B).
Proof.
  induction A as [|a A IH]; simpl; intros H.
  - inversion H; assumption.
  - inversion H as [|? ? HS HF]; subst. constructor; [auto|].
    rewrite Forall_app in *. destruct HF as [HA HB].
    inversion HB; subst. split; assumption.
Qed.

Lemma sorted_app_before A k B :
  StronglySorted R (A ++ k :: B) -> Forall (fun a => R a k) A.
Proof.
  induction A as [|a A IH]; simpl; intros H; [constructor|].
  inversion H as [|? ? HS HF]; subst. constructor; [|auto].
  rewrite Forall_app in HF. destruct HF as [_ HB].
  inversion HB; assumption.
Qed.

Lemma sorted_NoDup l :
  (forall a b, R a b -> a <> b) -> StronglySorted R l -> NoDup l.
Proof.
  intros Hneq. induction 1 as [|a l HS IH HF]; constructor; [|assumption].
  intros Hin. rewrite Forall_forall in HF.
  apply (Hneq a a (HF a Hin)). reflexivity.
Qed.
End Sorted.

Lemma canonical_sorted ks :
  canonical ks = true -> StronglySorted (fun a b => precedes a b = true) ks.
Proof.
  induction ks as [|k r IH]; simpl; intros H; [constructor|].
  apply andb_prop in H. destruct H as [H1 H2].
  constructor; [auto|]. rewrite forallb_forall in H1.
  apply Forall_forall. exact H1.
Qed.

Lemma obj_set_append acc k x :
  Forall (fun a => precedes a k = true) (map fst acc) ->
  obj_set acc k x = acc ++ [(k, x)].
Proof.
  induction acc as [|[a v] acc IH]; simpl; intros H; [reflexivity|].
  inversion H as [|? ? Ha Hr]; subst.
  destruct (String.eqb_spec a k) as [E|_].
  - apply precedes_neq in Ha. contradiction.
  - rewrite Ha, IH by assumption. reflexivity.
Qed.

Lemma arr_set_entries acc :
  forall j n x,
    (List.length acc <= j)%nat ->
    arr_entries n (arr_set acc j x) =
    arr_entries n acc ++ [(key_of_index (n + j), x)].
Proof.
  induction acc as [|o acc IH]; intros j.
  - induction j as [|j IHj]; intros n x _; simpl.
    + rewrite Nat.add_0_r. reflexivity.
    + rewrite IHj by (simpl; lia). rewrite Nat.add_succ_r. reflexivity.
  - intros n x Hle. destruct j as [|j]; simpl in Hle; [lia|].
    simpl. destruct o; simpl; rewrite IH by lia; rewrite Nat.add_succ_r;
      reflexivity.
Qed.

Lemma arr_set_length acc :
  forall j x, (List.length acc <= j)%nat ->
              List.length (arr_set acc j x) = S j.
Proof.
  induction acc as [|o acc IH]; intros j.
  - induction j as [|j IHj]; intros x _; simpl; [reflexivity|].
    rewrite IHj by (simpl; lia). reflexivity.
  - intros x Hle. destruct j as [|j]; simpl in Hle; [lia|].
    simpl. rewrite IH by lia. reflexivity.
Qed.

Lemma arr_entries_cons_inv l :
  forall i k v post,
    arr_entries i l = (k, v) :: post ->
    exists j l', (i <= j)%nat /\ k = key_of_index j
                 /\ post = arr_entries (S j) l'
                 /\ (S j + List.length l' <= i + List.length l)%nat.
Proof.
  induction l as [|o l IH]; intros i k v post H; simpl in H; [discriminate|].
  destruct o as [x|].
  - inversion H; subst. exists i, l. simpl. repeat split; lia.
  - apply IH in H. destruct H as [j [l' [H1 [H2 [H3 H4]]]]].
    exists j, l'. simpl. repeat split; try assumption; lia.
Qed.

Lemma same_kind_trans a b c :
  same_kind a b = true -> same_kind b c = true -> same_kind a c = true.
Proof. destruct a, b, c; simpl; congruence. Qed.

Lemma ready_container r post : ready r post -> same_kind r r = true.
Proof. destruct r; simpl; tauto. Qed.

Lemma ready_skip r kv post : ready r (kv :: post) -> ready r post.
Proof.
  destruct r as [| | | | |acc|acc]; simpl; try tauto.
  - apply sorted_app_drop.
  - intros [i [l [Hp [Hlen Hb]]]]. destruct kv as [k v]. symmetry in Hp.
    apply arr_entries_cons_inv in Hp.
    destruct Hp as [j [l' [H1 [H2 [H3 H4]]]]].
    exists (S j), l'. repeat split; [assumption|lia|lia].
Qed.

Lemma key_of_index_assignable i : assignable (key_of_index i) = true.
Proof.
  unfold assignable. destruct (String.eqb_spec (key_of_index i) "__proto__")
    as [E|_]; [|reflexivity].
  apply (f_equal NilEmpty.uint_of_string) in E. unfold key_of_index in E.
  rewrite NilEmpty.usu in E. discriminate.
Qed.

Lemma own_app a b : own (a ++ b) = own a ++ own b.
Proof. apply filter_app. Qed.

Lemma ready_set r k v post x :
  ready r ((k, v) :: post) ->
  same_kind (set r k x) r = true
  /\ entries (set r k x) = entries r ++ own [(k, x)]
  /\ ready (set r k x) post.
Proof.
  destruct r as [| | | | |acc|acc]; simpl; try tauto.
  - intros H. destruct (assignable k); simpl.
    + rewrite obj_set_append by (apply (sorted_app_before _ _ _ _ H)).
      repeat split. rewrite map_app, <- app_assoc. exact H.
    + rewrite app_nil_r. repeat split. apply (sorted_app_drop _ _ _ _ H).
  - intros [i [l [Hp [Hlen Hb]]]]. symmetry in Hp.
    apply arr_entries_cons_inv in Hp.
    destruct Hp as [j [l' [H1 [H2 [H3 H4]]]]]. subst k.
    rewrite index_of_key_of_index by lia. rewrite Nat2N.id. simpl.
    rewrite key_of_index_assignable. repeat split.
    + apply (arr_set_entries acc j 0%nat x). lia.
    + exists (S j), l'. rewrite arr_set_length by lia.
      repeat split; [assumption|lia|lia].
Qed.

Lemma build_cons term k v es r :
  build term ((k, v) :: es) r =
  build term es (match keep term k v with Some x => set r k x | None => r end).
Proof. reflexivity. Qed.

Lemma kept_cons term k v es :
  kept term ((k, v) :: es) =
  match keep term k v with Some x => [(k, x)] | None => [] end
  ++ kept term es.
Proof. reflexivity. Qed.

Lemma build_ready term es :
  forall r, ready r es ->
            same_kind (build term es r) r = true
            /\ entries (build term es r) = entries r ++ own (kept term es).
Proof.
  induction es as [|[k v] es IH]; intros r Hr.
  - simpl. rewrite app_nil_r. split; [|reflexivity].
    apply (ready_container _ _ Hr).
  - rewrite build_cons, kept_cons, own_app.
    destruct (keep term k v) as [x|].
    + destruct (ready_set _ _ _ _ x Hr) as [Hk [He Hr']].
      destruct (IH _ Hr') as [Hk' He']. split.
      * apply (same_kind_trans _ _ _ Hk' Hk).
      * rewrite He', He, <- app_assoc. reflexivity.
    + apply IH. apply (ready_skip _ _ _ Hr).
Qed.

(** ** Well-formed documents *)

Lemma wf_child obj k c :
  wf obj = true -> In (k, c) (entries obj) -> wf c = true.
Proof.
  destruct obj as [| | | | |kvs|l]; simpl; try tauto; intros H Hin.
  - apply andb_prop in H. destruct H as [_ H].
    rewrite forallb_forall in H. apply (H (k, c) Hin).
  - apply andb_prop in H. destruct H as [_ H].
    rewrite forallb_forall in H. apply arr_entries_In in Hin.
    destruct Hin as [j [_ Hj]]. apply nth_error_In in Hj. apply (H _ Hj).
Qed.

Lemma arr_entries_sorted l :
  forall i,
    (N.of_nat (i + List.length l) <= 4294967295)%N ->
    StronglySorted (fun a b => precedes a b = true)
      (map fst (arr_entries i l)).
Proof.
  induction l as [|o l IH]; intros i Hb; simpl; [constructor|].
  simpl in Hb. destruct o as [x|]; simpl.
  - constructor; [apply IH; lia|]. apply Forall_forall. intros k Hin.
    apply in_map_iff in Hin. destruct Hin as [[k' v] [Hk Hin]]; simpl in Hk.
    subst k'. apply arr_entries_In in Hin. destruct Hin as [j [Hk Hj]].
    subst k.
    apply precedes_index; [lia|].
    assert (j < List.length l)%nat
      by (apply nth_error_Some; congruence). lia.
  - apply IH. lia.
Qed.

Lemma wf_keys_sorted obj :
  wf obj = true ->
  StronglySorted (fun a b => precedes a b = true) (map fst (entries obj)).
Proof.
  destruct obj as [| | | | |kvs|l]; simpl; try (intros; constructor).
  - intros H. apply andb_prop in H. destruct H as [H _].
    apply canonical_sorted. exact H.
  - intros H. apply andb_prop in H. destruct H as [H _].
    apply N.leb_le in H. apply arr_entries_sorted. simpl. exact H.
Qed.

Lemma wf_keys_NoDup obj : wf obj = true -> NoDup (map fst (entries obj)).
Proof.
  intros H. apply (sorted_NoDup (fun a b => precedes a b = true)).
  - intros a b. apply precedes_neq.
  - apply wf_keys_sorted. exact H.
Qed.

Lemma wf_ready obj :
  wf obj = true -> is_container obj = true ->
  ready (emptyLike obj) (entries obj).
Proof.
  intros H C. destruct obj as [| | | | |kvs|l]; try discriminate.
  - apply (wf_keys_sorted _ H).
  - simpl. exists 0%nat, l. simpl in H. apply andb_prop in H.
    destruct H as [H _]. apply N.leb_le in H. simpl.
    repeat split; [lia|exact H].
Qed.

(** ** The pruned container *)

Lemma filtered_of_leaf term obj :
  is_container obj = false ->
  filtered_of term obj = obj \/ filtered_of term obj = VNull.
Proof.
  destruct obj as [| | | |s| |]; try discriminate; intros _;
    try (right; reflexivity).
  rewrite filtered_of_str.
  destruct (includes (toLowerCase s) term); [left|right]; reflexivity.
Qed.

Lemma filtered_of_wf term obj :
  wf obj = true -> is_container obj = true ->
  (kept term (entries obj) = [] /\ filtered_of term obj = VNull)
  \/ (kept term (entries obj) <> []
      /\ same_kind (filtered_of term obj) obj = true
      /\ entries (filtered_of term obj) = own (kept term (entries obj))).
Proof.
  intros W C. rewrite (filtered_of_container _ _ C).
  destruct (any_kept term (entries obj)) eqn:A.
  - right. destruct (build_ready term _ _ (wf_ready _ W C)) as [K E].
    split; [|split].
    + intros Hnil. apply any_kept_false in Hnil. congruence.
    + apply (same_kind_trans _ _ _ K). destruct obj; try discriminate;
        reflexivity.
    + rewrite E. destruct obj; try discriminate; reflexivity.
  - left. split; [|reflexivity]. apply any_kept_false. exact A.
Qed.

(** *** Documents without a [__proto__] key *)

Lemma own_all es :
  forallb (fun kv => assignable (fst kv)) es = true -> own es = es.
Proof.
  induction es as [|kv es IH]; simpl; [reflexivity|]. intros H.
  apply andb_prop in H. destruct H as [H1 H2]. rewrite H1, IH by exact H2.
  reflexivity.
Qed.

Lemma own_In k x es : In (k, x) (own es) <-> In (k, x) es /\ assignable k = true.
Proof. unfold own. rewrite filter_In. reflexivity. Qed.

Lemma proto_free_keys obj :
  proto_free obj = true ->
  forall k c, In (k, c) (entries obj) -> assignable k = true.
Proof.
  destruct obj as [| | | | |kvs|l]; simpl; try tauto; intros H k c Hin.
  - rewrite forallb_forall in H. specialize (H _ Hin). simpl in H.
    apply andb_prop in H. tauto.
  - apply arr_entries_In in Hin. destruct Hin as [j [E _]]. subst k.
    apply key_of_index_assignable.
Qed.

Lemma proto_free_child obj k c :
  proto_free obj = true -> In (k, c) (entries obj) -> proto_free c = true.
Proof.
  destruct obj as [| | | | |kvs|l]; simpl; try tauto; intros H Hin.
  - rewrite forallb_forall in H. specialize (H _ Hin). simpl in H.
    apply andb_prop in H. tauto.
  - rewrite forallb_forall in H. apply arr_entries_In in Hin.
    destruct Hin as [j [_ Hj]]. apply nth_error_In in Hj. apply (H _ Hj).
Qed.

Lemma own_kept term es :
  (forall k c, In (k, c) es -> assignable k = true) ->
  own (kept term es) = kept term es.
Proof.
  intros H. apply own_all. apply forallb_forall. intros [k x] Hin. simpl.
  unfold kept in Hin. apply in_flat_map in Hin.
  destruct Hin as [[k' v] [Hin Hk]]. unfold kept_entry in Hk; simpl in Hk.
  destruct (keep term k' v); [|destruct Hk]. destruct Hk as [E|[]].
  inversion E; subst. apply (H _ _ Hin).
Qed.

(** For a document without a [__proto__] key the own properties of the
    pruned container are all the kept entries. *)
Lemma filtered_of_pf term obj :
  wf obj = true -> proto_free obj = true -> is_container obj = true ->
  (kept term (entries obj) = [] /\ filtered_of term obj = VNull)
  \/ (kept term (entries obj) <> []
      /\ same_kind (filtered_of term obj) obj = true
      /\ entries (filtered_of term obj) = kept term (entries obj)).
Proof.
  intros W P C. destruct (filtered_of_wf term obj W C) as [H|[K [S E]]];
    [left; exact H|right].
  rewrite (own_kept term _ (proto_free_keys _ P)) in E. auto.
Qed.

Lemma assoc_In k es v : assoc k es = Some v -> In (k, v) es.
Proof.
  induction es as [|[k' v'] es IH]; simpl; [discriminate|].
  destruct (String.eqb_spec k' k) as [E|_].
  - intros H. inversion H; subst. left; reflexivity.
  - intros H. right. auto.
Qed.

Lemma assoc_absent k es : ~ In k (map fst es) -> assoc k es = None.
Proof.
  induction es as [|[k' v'] es IH]; simpl; [reflexivity|]. intros H.
  destruct (String.eqb_spec k' k) as [E|_]; [tauto|]. apply IH. tauto.
Qed.

Lemma In_assoc k es v :
  NoDup (map fst es) -> In (k, v) es -> assoc k es = Some v.
Proof.
  induction es as [|[k' v'] es IH]; simpl; [tauto|].
  intros ND [H|H]; inversion ND as [|? ? Hnot ND']; subst.
  - inversion H; subst. rewrite String.eqb_refl. reflexivity.
  - destruct (String.eqb_spec k' k) as [E|_]; [|auto]. subst k'.
    exfalso. apply Hnot. apply (in_map fst _ _ H).
Qed.

Lemma kept_keys term es k :
  In k (map fst (kept term es)) -> In k (map fst es).
Proof.
  induction es as [|[k' v'] es IH]; [tauto|]. rewrite kept_cons, map_app, in_app_iff.
  simpl. intros [H|H]; [|right; auto].
  destruct (keep term k' v'); simpl in H; [|tauto].
  destruct H as [H|[]]. left. exact H.
Qed.

Lemma assoc_app k a b :
  assoc k (a ++ b) = match assoc k a with Some v => Some v | None => assoc k b end.
Proof.
  induction a as [|[k' v'] a IH]; simpl; [reflexivity|].
  destruct (k' =? k); [reflexivity|exact IH].
Qed.

Lemma assoc_kept term es k v :
  NoDup (map fst es) -> In (k, v) es ->
  assoc k (kept term es) = keep term k v.
Proof.
  induction es as [|[k' v'] es IH]; [simpl; tauto|].
  intros ND Hin. simpl in ND. inversion ND as [|? ? Hnot ND']; subst.
  rewrite kept_cons, assoc_app. destruct Hin as [H|H].
  - inversion H; subst. destruct (keep term k v) as [x|]; simpl.
    + rewrite String.eqb_refl. reflexivity.
    + apply assoc_absent. intros Hk. apply Hnot. apply (kept_keys _ _ _ Hk).
  - assert (k' <> k) as Hne
        by (intros E; subst; apply Hnot; apply (in_map fst _ _ H)).
    apply String.eqb_neq in Hne.
    destruct (keep term k' v'); simpl; rewrite ?Hne; auto.
Qed.

Lemma assoc_kept_inv term es k x :
  assoc k (kept term es) = Some x ->
  exists v, In (k, v) es /\ keep term k v = Some x.
Proof.
  induction es as [|[k' v'] es IH]; [simpl; discriminate|].
  rewrite kept_cons, assoc_app.
  destruct (keep term k' v') as [y|] eqn:K; simpl.
  - destruct (String.eqb_spec k' k) as [E|_].
    + intros H. inversion H; subst. exists v'. split; [left; reflexivity|exact K].
    + intros H. destruct (IH H) as [v [Hin Hk]]. exists v. split; [right|]; auto.
  - intros H. destruct (IH H) as [v [Hin Hk]]. exists v. split; [right|]; auto.
Qed.

Lemma child_In obj k v : child obj k = Some v -> In (k, v) (entries obj).
Proof. apply assoc_In. Qed.

Lemma In_child obj k v :
  wf obj = true -> In (k, v) (entries obj) -> child obj k = Some v.
Proof. intros W. apply In_assoc. apply (wf_keys_NoDup _ W). Qed.

Lemma child_leaf obj k : is_container obj = false -> child obj k = None.
Proof. destruct obj; try discriminate; reflexivity. Qed.

Lemma kept_In_inv term es k x :
  In (k, x) (kept term es) ->
  exists v, In (k, v) es /\ keep term k v = Some x.
Proof.
  unfold kept. rewrite in_flat_map.
  intros [[k' v] [Hin Hk]]. unfold kept_entry in Hk; simpl in Hk.
  destruct (keep term k' v) as [y|] eqn:K; [|destruct Hk].
  destruct Hk as [E|[]]. inversion E; subst. exists v. auto.
Qed.

Lemma assoc_own k es :
  assignable k = true -> assoc k (own es) = assoc k es.
Proof.
  intros A. induction es as [|[k' v] es IH]; simpl; [reflexivity|].
  destruct (assignable k') eqn:A'; simpl.
  - rewrite IH. reflexivity.
  - destruct (String.eqb_spec k' k) as [E|_]; [|exact IH].
    subst k'. congruence.
Qed.

(** The own entries of the pruned value are kept entries of the original. *)
Lemma child_filtered_inv term obj k x :
  wf obj = true ->
  child (filtered_of term obj) k = Some x ->
  exists v, child obj k = Some v /\ keep term k v = Some x.
Proof.
  intros W H. destruct (is_container obj) eqn:C.
  - destruct (filtered_of_wf term obj W C) as [[_ E]|[_ [_ E]]].
    + rewrite E in H. discriminate.
    + unfold child in H. rewrite E in H. apply assoc_In in H.
      apply own_In in H. destruct H as [H _]. apply kept_In_inv in H.
      destruct H as [v [Hin Hk]]. exists v. split; [|exact Hk].
      apply (In_child _ _ _ W Hin).
  - destruct (filtered_of_leaf term obj C) as [E|E]; rewrite E in H.
    + rewrite (child_leaf _ _ C) in H. discriminate.
    + discriminate.
Qed.

(** A kept entry makes the result non-null, and is an own property of it
    unless its key is [__proto__]. *)
Lemma child_filtered term obj k v x :
  wf obj = true ->
  child obj k = Some v -> keep term k v = Some x ->
  (assignable k = true -> child (filtered_of term obj) k = Some x)
  /\ notNull (filtered_of term obj) = true.
Proof.
  intros W Hc Hk. apply child_In in Hc.
  pose proof (entries_container _ _ Hc) as C.
  pose proof (assoc_kept term _ _ _ (wf_keys_NoDup _ W) Hc) as A.
  rewrite Hk in A.
  destruct (filtered_of_wf term obj W C) as [[E _]|[_ [K E]]].
  - rewrite E in A. discriminate.
  - unfold child. rewrite E. split.
    + intros Ak. rewrite (assoc_own _ _ Ak). exact A.
    + destruct (filtered_of term obj), obj; simpl in K; try discriminate;
        reflexivity.
Qed.

Lemma lookup_null p x :
  notNull x = false -> forall y, lookup x p = Some y -> p = [] /\ y = x.
Proof.
  intros H y. destruct p as [|k p]; simpl.
  - intros E. inversion E. auto.
  - rewrite child_leaf by (destruct x; try discriminate; reflexivity).
    discriminate.
Qed.

(** ** Null results and empty match lists *)

Lemma keep_cases term k v x :
  keep term k v = Some x ->
  (keyMatches term k = true /\ x = v)
  \/ (keyMatches term k = false /\ x = filtered_of term v /\ notNull x = true).
Proof.
  unfold keep. destruct (keyMatches term k).
  - intros H. inversion H. left. auto.
  - destruct (notNull (filtered_of term v)) eqn:N; [|discriminate].
    intros H. inversion H; subst. right. auto.
Qed.

Lemma set_kind r k x : same_kind r r = true -> same_kind (set r k x) r = true.
Proof.
  destruct r; simpl; try discriminate.
  - destruct (assignable k); reflexivity.
  - destruct (index_of_key k); reflexivity.
Qed.

Lemma build_kind term es :
  forall r, same_kind r r = true -> same_kind (build term es r) r = true.
Proof.
  induction es as [|[k v] es IH]; intros r Hr; [exact Hr|].
  rewrite build_cons. destruct (keep term k v) as [x|]; [|auto].
  pose proof (set_kind r k x Hr) as Hs.
  apply (same_kind_trans _ (set r k x)); [|exact Hs].
  apply IH. destruct (set r k x); try discriminate; reflexivity.
Qed.

Lemma same_kind_notNull a b : same_kind a b = true -> notNull a = true.
Proof. destruct a, b; simpl; try discriminate; reflexivity. Qed.

Lemma same_kind_container a b : same_kind a b = true -> is_container a = true.
Proof. destruct a, b; simpl; try discriminate; reflexivity. Qed.

Lemma filtered_of_null term obj :
  notNull (filtered_of term obj) = false -> filtered_of term obj = VNull.
Proof.
  destruct (is_container obj) eqn:C.
  - rewrite (filtered_of_container _ _ C).
    destruct (any_kept term (entries obj)); [|reflexivity].
    intros H. rewrite (same_kind_notNull _ (emptyLike obj)) in H;
      [discriminate|].
    apply build_kind. destruct obj; try discriminate; reflexivity.
  - destruct obj as [| | | |s| |]; try discriminate; try reflexivity.
    rewrite filtered_of_str. destruct (includes (toLowerCase s) term);
      [discriminate|reflexivity].
Qed.

Lemma keep_none_paths term path k v :
  (forall p, notNull (filtered_of term v) = false <->
             dfs_match_paths v term p = []) ->
  keep term k v = None <-> entry_paths term path (k, v) = [].
Proof.
  intros IH. unfold keep, entry_paths, key_hit; simpl.
  destruct (keyMatches term k).
  - split; [discriminate|]. intros H. apply app_eq_nil in H.
    destruct H; discriminate.
  - rewrite app_nil_r, <- IH.
    destruct (notNull (filtered_of term v)); split; congruence.
Qed.

Lemma filtered_null_iff term obj :
  forall path,
    notNull (filtered_of term obj) = false <->
    dfs_match_paths obj term path = [].
Proof.
  induction obj as [obj IH] using value_entries_ind. intros path.
  destruct (is_container obj) eqn:C.
  - rewrite (dfs_match_paths_container _ _ _ C), (filtered_of_container _ _ C).
    assert (A : any_kept term (entries obj) = false <->
                flat_map (entry_paths term path) (entries obj) = []).
    { revert IH. generalize (entries obj) as es.
      induction es as [|[k v] es IHes]; intros IH; [simpl; tauto|].
      unfold any_kept; simpl. fold (any_kept term es).
      rewrite orb_false_iff, IHes
        by (intros k' c' Hin; apply (IH k' c'); right; exact Hin).
      pose proof (keep_none_paths term path k v
                    (IH k v (or_introl eq_refl))) as K.
      split.
      - intros [H1 H2].
        destruct (keep term k v); [discriminate|].
        destruct K as [K _]. rewrite (K eq_refl), H2. reflexivity.
      - intros H. apply app_eq_nil in H. destruct H as [H1 H2].
        apply K in H1. rewrite H1. auto. }
    destruct (any_kept term (entries obj)).
    + rewrite (same_kind_notNull _ (emptyLike obj))
        by (apply build_kind; destruct obj; try discriminate; reflexivity).
      rewrite <- A. tauto.
    + rewrite <- A. simpl. tauto.
  - destruct obj as [| | | |s| |]; try discriminate; simpl; try tauto.
    rewrite filtered_of_str. destruct (includes (toLowerCase s) term); simpl;
      split; congruence.
Qed.

(** ** The memo *)

Lemma includes_empty t : includes "" t = true -> t = "".
Proof. destruct t; simpl; [reflexivity|discriminate]. Qed.

Lemma toLowerCase_empty s : toLowerCase s = "" -> s = "".
Proof. destruct s; simpl; [reflexivity|discriminate]. Qed.

Lemma useMemo_bypass doc searchTerm :
  toLowerCase (trim searchTerm) = "" \/ truthy doc = false ->
  useMemo doc searchTerm = {| filteredJson := doc; matched := [] |}.
Proof.
  unfold useMemo. intros [H|H]; rewrite H; simpl; [reflexivity|].
  rewrite orb_true_r. reflexivity.
Qed.

Lemma useMemo_active doc searchTerm :
  toLowerCase (trim searchTerm) <> "" -> truthy doc = true ->
  useMemo doc searchTerm =
  {| filteredJson :=
       if truthy (filtered_of (toLowerCase (trim searchTerm)) doc)
       then filtered_of (toLowerCase (trim searchTerm)) doc else VObj [];
     matched := dfs_match_paths doc (toLowerCase (trim searchTerm)) [] |}.
Proof.
  intros Ht Hd. unfold useMemo. apply String.eqb_neq in Ht.
  rewrite Ht, Hd, filterTree_eq. reflexivity.
Qed.

Lemma falsy_no_paths doc term :
  term <> "" -> truthy doc = false -> dfs_match_paths doc term [] = [].
Proof.
  intros Ht. destruct doc as [| | | |s| |]; simpl; try reflexivity;
    try discriminate.
  destruct (String.eqb_spec s "") as [E|_]; [|discriminate]. subst s.
  intros _. destruct term; [contradiction|reflexivity].
Qed.

Lemma container_truthy v : is_container v = true -> truthy v = true.
Proof. destruct v; try discriminate; reflexivity. Qed.

(** ** Key matches keep the whole subtree *)

Lemma key_hit_In term path k :
  keyMatches term k = true -> In (path ++ [k]) (key_hit term path k).
Proof. unfold key_hit. intros H. rewrite H. left. reflexivity. Qed.

Lemma entry_paths_In term path obj k v q :
  In (k, v) (entries obj) ->
  In q (entry_paths term path (k, v)) ->
  In q (dfs_match_paths obj term path).
Proof.
  intros Hin Hq.
  rewrite (dfs_match_paths_container _ _ _ (entries_container _ _ Hin)).
  apply in_flat_map. exists (k, v). auto.
Qed.

(** C1, at the input where the program departs from it.  In the document
    [{"__proto__": 5}] the key contains the term [proto]; the loop sets
    [hasMatchHere] and pushes the child path, but the assignment
    [result[key] = val] of line 97 reaches the inherited setter: the result
    comes back without the entry. *)
Theorem filterTree_proto_key_match_not_stored :
  In ("__proto__", VNum 5) (entries (VObj [("__proto__", VNum 5)]))
  /\ keyMatches "proto" "__proto__" = true
  /\ filterTree (VObj [("__proto__", VNum 5)]) "proto" [] []
     = (VObj [], [["__proto__"]])
  /\ child (fst (filterTree (VObj [("__proto__", VNum 5)]) "proto" [] []))
       "__proto__" = None
  /\ useMemo (VObj [("__proto__", VNum 5)]) "proto"
     = {| filteredJson := VObj []; matched := [["__proto__"]] |}.
Proof. repeat split; left; reflexivity. Qed.

(** X19.  An entry of a mapping or sequence whose lowercased key contains
    the term, and whose key is not [__proto__], is stored in the pruned
    result with its original value, the whole subtree as it was; the result
    is returned (the kept flag is set), and the entry's child path is in the
    match list.  The last part is the loop body itself on such an entry: it
    assigns [val], sets [hasMatchHere] and pushes [newPath]. *)
Theorem key_match_keeps_subtree_of_own_key obj term path ms k v :
  wf obj = true ->
  In (k, v) (entries obj) ->
  keyMatches term k = true ->
  assignable k = true ->
  child (fst (filterTree obj term path ms)) k = Some v
  /\ notNull (fst (filterTree obj term path ms)) = true
  /\ In (path ++ [k]) (snd (filterTree obj term path ms))
  /\ forall result hasMatchHere matches,
      loopBody (filterTree v term) term path k v (result, hasMatchHere, matches)
      = (set result k v, true,
         snd (filterTree v term (path ++ [k]) matches) ++ [path ++ [k]]).
Proof.
  intros W Hin Hk Ak. rewrite filterTree_eq; simpl.
  assert (K : keep term k v = Some v) by (unfold keep; rewrite Hk; reflexivity).
  destruct (child_filtered term obj k v v W (In_child _ _ _ W Hin) K) as [C N].
  repeat split; try assumption.
  - apply (C Ak).
  - apply in_or_app. right. apply (entry_paths_In _ _ _ k v _ Hin).
    unfold entry_paths; simpl. apply in_or_app. right.
    apply key_hit_In. exact Hk.
  - intros result has matches. unfold loopBody.
    fold (keyMatches term k). rewrite Hk.
    destruct (filterTree v term (path ++ [k]) matches). reflexivity.
Qed.

Lemma key_match_keeps_subtree_example :
  (wf (VObj [("match_key", VObj [("a", VNum 1); ("b", VNum 2)])]) = true
   /\ In ("match_key", VObj [("a", VNum 1); ("b", VNum 2)])
        (entries (VObj [("match_key", VObj [("a", VNum 1); ("b", VNum 2)])]))
   /\ keyMatches "match" "match_key" = true
   /\ assignable "match_key" = true)
  /\ child (fst (filterTree
                   (VObj [("match_key", VObj [("a", VNum 1); ("b", VNum 2)])])
                   "match" [] [])) "match_key"
     = Some (VObj [("a", VNum 1); ("b", VNum 2)])
  /\ useMemo (VObj [("match_key", VObj [("a", VNum 1); ("b", VNum 2)])]) "match"
     = {| filteredJson :=
            VObj [("match_key", VObj [("a", VNum 1); ("b", VNum 2)])];
          matched := [["match_key"]] |}.
Proof.
  assert (H1 : wf (VObj [("match_key", VObj [("a", VNum 1); ("b", VNum 2)])])
               = true) by reflexivity.
  assert (H2 : In ("match_key", VObj [("a", VNum 1); ("b", VNum 2)])
                 (entries (VObj [("match_key",
                                  VObj [("a", VNum 1); ("b", VNum 2)])])))
    by (left; reflexivity).
  assert (H3 : keyMatches "match" "match_key" = true) by reflexivity.
  assert (H4 : assignable "match_key" = true) by reflexivity.
  split; [auto|]. split; [|reflexivity].
  apply (key_match_keeps_subtree_of_own_key _ "match" [] [] "match_key" _
           H1 H2 H3 H4).
Defined.

(** ** No false negatives *)

Lemma lookup_notNull x p s : lookup x p = Some (VStr s) -> notNull x = true.
Proof.
  intros H. destruct (notNull x) eqn:N; [reflexivity|].
  destruct (lookup_null p x N _ H) as [_ E]. subst x. discriminate.
Qed.

(** The path of a matching string is recorded, whatever the keys. *)
Lemma match_path_recorded term :
  forall p obj s,
    lookup obj p = Some (VStr s) ->
    includes (toLowerCase s) term = true ->
    forall path, In (path ++ p) (dfs_match_paths obj term path).
Proof.
  induction p as [|k p IH]; intros obj s L I path.
  - simpl in L. inversion L; subst obj. simpl. rewrite I, app_nil_r.
    left. reflexivity.
  - simpl in L. destruct (child obj k) as [c|] eqn:C; [|discriminate].
    pose proof (child_In _ _ _ C) as Hin.
    apply (entry_paths_In _ _ _ k c _ Hin).
    unfold entry_paths; simpl. apply in_or_app. left.
    replace (path ++ k :: p) with ((path ++ [k]) ++ p)
      by (rewrite <- app_assoc; reflexivity).
    apply (IH c s L I).
Qed.

(** The string itself is kept when no key of its path is [__proto__]. *)
Lemma filter_no_false_negative term :
  forall p obj s,
    wf obj = true ->
    forallb assignable p = true ->
    lookup obj p = Some (VStr s) ->
    includes (toLowerCase s) term = true ->
    lookup (filtered_of term obj) p = Some (VStr s).
Proof.
  induction p as [|k p IH]; intros obj s W A L I.
  - simpl in L. inversion L; subst obj. rewrite filtered_of_str, I.
    reflexivity.
  - simpl in L. destruct (child obj k) as [c|] eqn:C; [|discriminate].
    pose proof (child_In _ _ _ C) as Hin.
    simpl in A. apply andb_prop in A. destruct A as [Ak Ap].
    pose proof (IH c s (wf_child _ _ _ W Hin) Ap L I) as Lc.
    assert (K : exists x, keep term k c = Some x
                          /\ lookup x p = Some (VStr s)).
    { unfold keep. destruct (keyMatches term k); [exists c; auto|].
      rewrite (lookup_notNull _ _ _ Lc). eauto. }
    destruct K as [x [K Lx]].
    destruct (child_filtered term obj k c x W C K) as [Cx _].
    simpl. rewrite (Cx Ak). exact Lx.
Qed.

Lemma lookup_truthy x p s term :
  lookup x p = Some (VStr s) ->
  includes (toLowerCase s) term = true -> term <> "" ->
  truthy x = true.
Proof.
  intros L I T. destruct p as [|k p]; simpl in L.
  - inversion L; subst x. simpl. destruct (String.eqb_spec s "") as [E|_];
      [|reflexivity].
    subst s. apply includes_empty in I. contradiction.
  - destruct (child x k) eqn:C; [|discriminate].
    apply container_truthy. apply (entries_container _ _ (child_In _ _ _ C)).
Qed.

(** C2, at the input where the program departs from it.  The document
    [{"__proto__": "match"}] holds a string that contains the term; its path
    is recorded, but the assignment of line 97 reaches the inherited setter
    and the pruned tree is an empty mapping: the string is not in it. *)
Theorem useMemo_proto_leaf_not_in_pruned_tree :
  toLowerCase (trim "match") <> ""
  /\ lookup (VObj [("__proto__", VStr "match")]) ["__proto__"]
     = Some (VStr "match")
  /\ includes (toLowerCase "match") (toLowerCase (trim "match")) = true
  /\ useMemo (VObj [("__proto__", VStr "match")]) "match"
     = {| filteredJson := VObj []; matched := [["__proto__"]] |}
  /\ lookup (filteredJson (useMemo (VObj [("__proto__", VStr "match")]) "match"))
       ["__proto__"] = None.
Proof. repeat split; discriminate. Qed.

(** X20.  No false negatives off [__proto__]: when the document holds, at a
    key-path [p] none of whose keys is [__proto__], a string whose lowercase
    form contains the non-empty term, [p] is in the match list of the memo
    and the same string is found at [p] in the pruned tree. *)
Theorem no_false_negative_off_proto doc searchTerm p s :
  wf doc = true ->
  forallb assignable p = true ->
  toLowerCase (trim searchTerm) <> "" ->
  lookup doc p = Some (VStr s) ->
  includes (toLowerCase s) (toLowerCase (trim searchTerm)) = true ->
  In p (matched (useMemo doc searchTerm))
  /\ lookup (filteredJson (useMemo doc searchTerm)) p = Some (VStr s).
Proof.
  intros W A T L I.
  pose proof (filter_no_false_negative _ p doc s W A L I) as Lf.
  rewrite (useMemo_active _ _ T (lookup_truthy _ _ _ _ L I T)); simpl.
  rewrite (lookup_truthy _ _ _ _ Lf I T).
  split; [apply (match_path_recorded _ p doc s L I [])|exact Lf].
Qed.

Lemma no_false_negative_off_proto_example :
  (wf (VObj [("pages", VArr [Some (VObj [("name", VStr "Home")]);
                          Some (VObj [("name", VStr "Hello World")])])]) = true
   /\ forallb assignable ["pages"; "1"; "name"] = true
   /\ toLowerCase (trim " WOR ") <> ""
   /\ lookup (VObj [("pages", VArr [Some (VObj [("name", VStr "Home")]);
                          Some (VObj [("name", VStr "Hello World")])])])
        ["pages"; "1"; "name"] = Some (VStr "Hello World")
   /\ includes (toLowerCase "Hello World") (toLowerCase (trim " WOR ")) = true)
  /\ In ["pages"; "1"; "name"]
       (matched (useMemo (VObj [("pages", VArr [Some (VObj [("name", VStr "Home")]);
                          Some (VObj [("name", VStr "Hello World")])])]) " WOR "))
  /\ lookup (filteredJson (useMemo (VObj [("pages", VArr [Some (VObj [("name", VStr "Home")]);
                          Some (VObj [("name", VStr "Hello World")])])]) " WOR "))
       ["pages"; "1"; "name"]
     = Some (VStr "Hello World").
Proof.
  assert (H1 : wf (VObj [("pages", VArr [Some (VObj [("name", VStr "Home")]);
                          Some (VObj [("name", VStr "Hello World")])])]) = true) by reflexivity.
  assert (H0 : forallb assignable ["pages"; "1"; "name"] = true)
    by reflexivity.
  assert (H2 : toLowerCase (trim " WOR ") <> "") by discriminate.
  assert (H3 : lookup (VObj [("pages", VArr [Some (VObj [("name", VStr "Home")]);
                          Some (VObj [("name", VStr "Hello World")])])])
                 ["pages"; "1"; "name"] = Some (VStr "Hello World"))
    by reflexivity.
  assert (H4 : includes (toLowerCase "Hello World")
                 (toLowerCase (trim " WOR ")) = true) by reflexivity.
  split; [auto|].
  apply (no_false_negative_off_proto _ " WOR " _ _ H1 H0 H2 H3 H4).
Defined.

(** ** No false positives *)



Lemma truthy_notNull v : truthy v = true -> notNull v = true.
Proof. destruct v; simpl; try discriminate; reflexivity. Qed.

Lemma lookup_empty_object p x :
  lookup (VObj []) p = Some x -> p = [] /\ x = VObj [].
Proof.
  destruct p as [|k p]; simpl; [|discriminate].
  intros H. inversion H. auto.
Qed.




(** ** The null document *)

(** C4 (as stated) fails: with a non-empty term and a null document the guard
    [!term || !jsonData] returns the document, so the pruned value is null and
    not the empty mapping. *)
Lemma useMemo_null_document_not_empty_mapping :
  toLowerCase (trim "x") <> ""
  /\ useMemo VNull "x" = {| filteredJson := VNull; matched := [] |}
  /\ useMemo VNull "x" <> {| filteredJson := VObj []; matched := [] |}
  /\ notNull (filteredJson (useMemo VNull "x")) = false.
Proof.
  split; [discriminate|]. split; [reflexivity|]. split; [discriminate|].
  reflexivity.
Qed.

(** C4 (amended).  A null or undefined document, and any other falsy one, is
    returned as it is with an empty match list, for every term; the pruned
    value is never null or undefined when the document is truthy, the empty
    mapping standing in for a null filter result. *)
Theorem useMemo_falsy_document doc searchTerm :
  (truthy doc = false ->
   useMemo doc searchTerm = {| filteredJson := doc; matched := [] |})
  /\ (truthy doc = true ->
      notNull (filteredJson (useMemo doc searchTerm)) = true
      /\ (toLowerCase (trim searchTerm) <> "" ->
          filtered_of (toLowerCase (trim searchTerm)) doc = VNull ->
          filteredJson (useMemo doc searchTerm) = VObj [])).
Proof.
  split.
  - intros D. apply useMemo_bypass. right. exact D.
  - intros D. destruct (String.eqb_spec (toLowerCase (trim searchTerm)) "")
      as [E|T].
    + rewrite useMemo_bypass by (left; exact E). simpl.
      split; [apply (truthy_notNull _ D)|contradiction].
    + rewrite (useMemo_active _ _ T D); simpl. split.
      * destruct (truthy (filtered_of _ doc)) eqn:Tr; [|reflexivity].
        apply (truthy_notNull _ Tr).
      * intros _ E. rewrite E. reflexivity.
Qed.

Lemma useMemo_falsy_document_example :
  useMemo VNull "abc" = {| filteredJson := VNull; matched := [] |}
  /\ useMemo VUndef "abc" = {| filteredJson := VUndef; matched := [] |}
  /\ notNull (filteredJson (useMemo (VStr "abc") "zzz")) = true.
Proof.
  split; [|split].
  - apply (proj1 (useMemo_falsy_document VNull "abc")). reflexivity.
  - apply (proj1 (useMemo_falsy_document VUndef "abc")). reflexivity.
  - apply (proj2 (useMemo_falsy_document (VStr "abc") "zzz")). reflexivity.
Defined.

(** ** The recursive call under a matching key *)


(** C5 (as stated) fails: the recursive call comes before the test of
    [keyMatches] and scans the value all the same. *)
Lemma key_match_call_appends_matches :
  keyMatches "match" "match_key" = true
  /\ snd (filterTree (VObj [("a", VStr "match")]) "match" ["match_key"] [])
     = [["match_key"; "a"]]
  /\ matched (useMemo (VObj [("match_key", VObj [("a", VStr "match")])]) "match")
     = [["match_key"; "a"]; ["match_key"]]
  /\ ~ key_match_call_appends_nothing
         (VObj [("match_key", VObj [("a", VStr "match")])]) "match".
Proof.
  split; [reflexivity|]. split; [reflexivity|]. split; [reflexivity|].
  intros H.
  specialize (H "match_key" (VObj [("a", VStr "match")]) [] []
                (or_introl eq_refl) eq_refl).
  discriminate.
Qed.

(** C5 (amended).  Under a matching key the recursive call appends the
    match-paths found inside the entry's value, in their depth-first order;
    it appends none exactly when the value filters to null.  The loop body
    then pushes the entry's child path after them. *)
Theorem key_match_call_appends_subtree_matches term path key val ms :
  keyMatches term key = true ->
  snd (filterTree val term (path ++ [key]) ms)
  = ms ++ dfs_match_paths val term (path ++ [key])
  /\ (dfs_match_paths val term (path ++ [key]) = [] <->
      fst (filterTree val term (path ++ [key]) ms) = VNull)
  /\ forall result hasMatchHere,
      loopBody (filterTree val term) term path key val
        (result, hasMatchHere, ms)
      = (set result key val, true,
         ms ++ dfs_match_paths val term (path ++ [key]) ++ [path ++ [key]]).
Proof.
  intros Hk. rewrite filterTree_eq; simpl. split; [reflexivity|]. split.
  - rewrite <- filtered_null_iff. split.
    + apply filtered_of_null.
    + intros E. rewrite E. reflexivity.
  - intros result has. unfold loopBody. fold (keyMatches term key).
    rewrite Hk, filterTree_eq, <- app_assoc. reflexivity.
Qed.

Lemma key_match_call_appends_subtree_matches_example :
  keyMatches "match" "match_key" = true
  /\ snd (filterTree (VObj [("a", VStr "match"); ("b", VNum 2)]) "match"
            ([] ++ ["match_key"]) [])
     = [["match_key"; "a"]].
Proof.
  split; [reflexivity|].
  apply (proj1 (key_match_call_appends_subtree_matches "match" [] "match_key"
                  (VObj [("a", VStr "match"); ("b", VNum 2)]) [] eq_refl)).
Defined.

(** ** Order of the match list *)

(** C6.  For a non-empty term the match list of the memo is the depth-first
    list [dfs_match_paths] of the document: every container in its iteration
    order and, for each entry, the matches inside its value before the
    entry's own key match.  [filterTree] appends exactly that list to the
    match list it is given. *)
Theorem match_list_depth_first doc searchTerm :
  toLowerCase (trim searchTerm) <> "" ->
  matched (useMemo doc searchTerm)
  = dfs_match_paths doc (toLowerCase (trim searchTerm)) []
  /\ (forall obj term path ms,
        snd (filterTree obj term path ms)
        = ms ++ dfs_match_paths obj term path)
  /\ (forall obj term path,
        is_container obj = true ->
        dfs_match_paths obj term path
        = flat_map (fun kv =>
                      dfs_match_paths (snd kv) term (path ++ [fst kv])
                      ++ (if keyMatches term (fst kv)
                          then [path ++ [fst kv]] else []))
            (entries obj)).
Proof.
  intros T. split; [|split].
  - destruct (truthy doc) eqn:D.
    + rewrite (useMemo_active _ _ T D). reflexivity.
    + rewrite useMemo_bypass by (right; exact D).
      rewrite (falsy_no_paths _ _ T D). reflexivity.
  - intros obj term path ms. rewrite filterTree_eq. reflexivity.
  - intros obj term path C. apply (dfs_match_paths_container _ _ _ C).
Qed.

Lemma match_list_depth_first_example :
  toLowerCase (trim "ab") <> ""
  /\ matched (useMemo
                (VObj [("tab", VArr [Some (VStr "cab"); Some (VNum 1);
                                     Some (VObj [("lab", VStr "x")])]);
                       ("z", VStr "Abc")]) "ab")
     = [["tab"; "0"]; ["tab"; "2"; "lab"]; ["tab"]; ["z"]].
Proof.
  assert (H : toLowerCase (trim "ab") <> "") by discriminate.
  split; [exact H|].
  rewrite (proj1 (match_list_depth_first _ "ab" H)). reflexivity.
Defined.

(** ** Initial expansion of a node *)

(** C8.  Under an active search (a non-empty search box) a node at key-path
    [keyPath] starts expanded exactly when some recorded match-path, joined
    with dots, has the dot-joined [keyPath] as a string prefix. *)
Theorem shouldExpandNodeInitially_prefix searchTerm matchedPaths keyPath :
  searchTerm <> "" ->
  shouldExpandNodeInitially searchTerm matchedPaths keyPath = true <->
  exists mp, In mp matchedPaths
             /\ startsWith (join "." mp) (join "." keyPath) = true.
Proof.
  intros T. unfold shouldExpandNodeInitially.
  apply String.eqb_neq in T. rewrite T. simpl. apply existsb_exists.
Qed.

Lemma shouldExpandNodeInitially_quirk :
  "b" <> ""
  /\ shouldExpandNodeInitially "b" [["a"; "bc"]] ["a"; "b"] = true
  /\ join "." ["a"; "bc"] = "a.bc" /\ join "." ["a"; "b"] = "a.b".
Proof.
  assert (H : "b" <> "") by discriminate.
  split; [exact H|]. split; [|split; reflexivity].
  apply (proj2 (shouldExpandNodeInitially_prefix "b" [["a"; "bc"]] ["a"; "b"] H)).
  exists ["a"; "bc"]. split; [left; reflexivity|reflexivity].
Defined.

(** ** The empty term *)

(** C9.  With an empty term (nothing left of the search box after trimming)
    the memo returns the document itself and an empty match list. *)
Theorem useMemo_empty_term doc searchTerm :
  toLowerCase (trim searchTerm) = "" ->
  useMemo doc searchTerm = {| filteredJson := doc; matched := [] |}.
Proof. intros T. apply useMemo_bypass. left. exact T. Qed.

Lemma useMemo_empty_term_example :
  (toLowerCase (trim "") = "" /\ toLowerCase (trim "  ") = "")
  /\ useMemo (VObj [("x", VObj [("y", VStr "nomatch")])]) ""
     = {| filteredJson := VObj [("x", VObj [("y", VStr "nomatch")])];
          matched := [] |}
  /\ useMemo (VArr [Some (VNum 1)]) "  "
     = {| filteredJson := VArr [Some (VNum 1)]; matched := [] |}.
Proof.
  split; [split; reflexivity|]. split.
  - apply (useMemo_empty_term _ "" eq_refl).
  - apply (useMemo_empty_term _ "  " eq_refl).
Defined.

(** ** The pruned tree is a part of the original *)













(** ** Sequences keep their indices *)

Lemma In_kept term es k x :
  In (k, x) (kept term es) <->
  exists v, In (k, v) es /\ keep term k v = Some x.
Proof.
  unfold kept. rewrite in_flat_map. split.
  - intros [[k' v] [Hin Hk]]. unfold kept_entry in Hk; simpl in Hk.
    destruct (keep term k' v) as [y|] eqn:K; [|destruct Hk].
    destruct Hk as [E|[]]. inversion E; subst. exists v. auto.
  - intros [v [Hin K]]. exists (k, v). split; [exact Hin|].
    unfold kept_entry; simpl. rewrite K. left. reflexivity.
Qed.

Lemma arr_slot_entry l i x :
  nth_error l i = Some (Some x) <-> In (key_of_index i, x) (arr_entries 0 l).
Proof.
  rewrite arr_entries_In. split.
  - intros H. exists i. auto.
  - intros [j [E H]]. simpl in E. apply key_of_index_inj in E. subst j.
    exact H.
Qed.

Lemma arr_keys_assignable l i :
  forall k c, In (k, c) (arr_entries i l) -> assignable k = true.
Proof.
  intros k c Hin. apply arr_entries_In in Hin. destruct Hin as [j [E _]].
  subst k. apply key_of_index_assignable.
Qed.

(** C10.  Filtering a sequence yields a sequence (or null when nothing
    survives) in which slot [i] is filled exactly when element [i] of the
    original survives, with what the loop keeps for it; any other slot is a
    hole or lies past the end.  Survivors are not moved to the front. *)
Theorem filterTree_array_keeps_indices l term path ms :
  wf (VArr l) = true ->
  exists r,
    (fst (filterTree (VArr l) term path ms) = VArr r
     \/ (fst (filterTree (VArr l) term path ms) = VNull /\ r = []))
    /\ forall i x,
        nth_error r i = Some (Some x) <->
        exists v, nth_error l i = Some (Some v)
                  /\ keep term (key_of_index i) v = Some x.
Proof.
  intros W. rewrite filterTree_eq; simpl.
  destruct (filtered_of_wf term (VArr l) W eq_refl) as [[K E]|[_ [S E]]].
  - exists []. split; [right; auto|]. intros i x. split.
    + destruct i; discriminate.
    + intros [v [Hv Hk]]. apply arr_slot_entry in Hv.
      assert (Hin : In (key_of_index i, x) (kept term (entries (VArr l))))
        by (apply In_kept; exists v; auto).
      rewrite K in Hin. destruct Hin.
  - destruct (filtered_of term (VArr l)) as [| | | | | |r]; try discriminate.
    exists r. split; [left; reflexivity|]. intros i x.
    rewrite arr_slot_entry. simpl in E.
    rewrite E, (own_kept term _ (arr_keys_assignable l 0)), In_kept.
    split; intros [v [Hv Hk]]; exists v; split; try exact Hk;
      apply arr_slot_entry; exact Hv.
Qed.

Lemma filterTree_array_keeps_indices_example :
  wf (VArr [Some (VStr "no"); Some (VStr "match"); Some (VStr "x");
            Some (VStr "rematch"); Some (VNum 4)]) = true
  /\ fst (filterTree
            (VArr [Some (VStr "no"); Some (VStr "match"); Some (VStr "x");
                   Some (VStr "rematch"); Some (VNum 4)]) "match" [] [])
     = VArr [None; Some (VStr "match"); None; Some (VStr "rematch")]
  /\ exists r,
      (fst (filterTree
              (VArr [Some (VStr "no"); Some (VStr "match"); Some (VStr "x");
                     Some (VStr "rematch"); Some (VNum 4)]) "match" [] [])
       = VArr r
       \/ (fst (filterTree
                  (VArr [Some (VStr "no"); Some (VStr "match"); Some (VStr "x");
                         Some (VStr "rematch"); Some (VNum 4)]) "match" [] [])
           = VNull /\ r = []))
      /\ forall i x,
          nth_error r i = Some (Some x) <->
          exists v,
            nth_error [Some (VStr "no"); Some (VStr "match"); Some (VStr "x");
                       Some (VStr "rematch"); Some (VNum 4)] i = Some (Some v)
            /\ keep "match" (key_of_index i) v = Some x.
Proof.
  split; [reflexivity|]. split; [reflexivity|].
  apply (filterTree_array_keeps_indices
           [Some (VStr "no"); Some (VStr "match"); Some (VStr "x");
            Some (VStr "rematch"); Some (VNum 4)] "match" [] [] eq_refl).
Defined.

(** * Further properties of the filter *)

(** ** An empty pruned tree means no match *)

Lemma filtered_truthy term obj :
  term <> "" -> notNull (filtered_of term obj) = true ->
  truthy (filtered_of term obj) = true.
Proof.
  intros T N. destruct (is_container obj) eqn:C.
  - rewrite (filtered_of_container _ _ C) in *.
    destruct (any_kept term (entries obj)); [|discriminate].
    apply container_truthy. apply (same_kind_container _ (emptyLike obj)).
    apply build_kind. destruct obj; try discriminate; reflexivity.
  - destruct obj as [| | | |s| |]; try discriminate;
      try (unfold filtered_of in N; simpl in N; discriminate).
    rewrite filtered_of_str in *.
    destruct (includes (toLowerCase s) term) eqn:I; [|discriminate].
    simpl. destruct (String.eqb_spec s "") as [E|_]; [|reflexivity].
    subst s. apply includes_empty in I. contradiction.
Qed.

Lemma no_proto_key_assignable obj :
  wf obj = true -> child obj "__proto__" = None ->
  forall k c, In (k, c) (entries obj) -> assignable k = true.
Proof.
  intros W N k c Hin. unfold assignable.
  destruct (String.eqb_spec k "__proto__") as [E|_]; [|reflexivity].
  subst k. rewrite (In_child _ _ _ W Hin) in N. discriminate.
Qed.

Lemma filtered_nonempty term obj :
  wf obj = true -> child obj "__proto__" = None ->
  filtered_of term obj <> VObj [].
Proof.
  intros W P E. destruct (is_container obj) eqn:C.
  - destruct (filtered_of_wf term obj W C) as [[_ N]|[K [_ En]]].
    + congruence.
    + rewrite (own_kept term _ (no_proto_key_assignable _ W P)) in En.
      rewrite E in En. simpl in En. congruence.
  - destruct (filtered_of_leaf term obj C) as [L|L]; rewrite L in E.
    + subst obj. discriminate.
    + discriminate.
Qed.

Lemma useMemo_fallback_iff doc searchTerm :
  wf doc = true ->
  child doc "__proto__" = None ->
  truthy doc = true ->
  toLowerCase (trim searchTerm) <> "" ->
  filteredJson (useMemo doc searchTerm) = VObj [] <->
  matched (useMemo doc searchTerm) = [].
Proof.
  intros W P D T. rewrite (useMemo_active _ _ T D); simpl.
  rewrite <- (filtered_null_iff _ doc []).
  destruct (truthy (filtered_of _ doc)) eqn:Tr.
  - rewrite (truthy_notNull _ Tr). split; [|discriminate].
    intros E. destruct (filtered_nonempty _ _ W P E).
  - destruct (notNull (filtered_of _ doc)) eqn:N; [|tauto].
    rewrite (filtered_truthy _ _ T N) in Tr. discriminate.
Qed.

(** X1.  For a truthy document that has no [__proto__] key of its own and
    a non-empty term, the memo hands the viewer the empty mapping exactly
    when the match list is empty. *)
Theorem useMemo_empty_iff_no_match doc searchTerm :
  wf doc = true ->
  child doc "__proto__" = None ->
  truthy doc = true ->
  toLowerCase (trim searchTerm) <> "" ->
  filteredJson (useMemo doc searchTerm) = VObj [] <->
  matched (useMemo doc searchTerm) = [].
Proof. apply useMemo_fallback_iff. Qed.

Lemma useMemo_empty_iff_no_match_example :
  (wf (VArr [Some (VStr "abc"); Some (VNum 5)]) = true
   /\ child (VArr [Some (VStr "abc"); Some (VNum 5)]) "__proto__" = None
   /\ truthy (VArr [Some (VStr "abc"); Some (VNum 5)]) = true
   /\ toLowerCase (trim "5") <> "")
  /\ filteredJson (useMemo (VArr [Some (VStr "abc"); Some (VNum 5)]) "5")
     = VObj [].
Proof.
  split; [repeat split; discriminate|].
  apply (proj2 (useMemo_empty_iff_no_match
                  (VArr [Some (VStr "abc"); Some (VNum 5)]) "5"
                  eq_refl eq_refl eq_refl ltac:(discriminate))).
  reflexivity.
Defined.

(** ** Every recorded path is a match *)

Lemma dfs_sound term :
  forall obj,
    wf obj = true ->
    forall path q,
      In q (dfs_match_paths obj term path) ->
      exists p node,
        q = path ++ p
        /\ lookup obj p = Some node
        /\ (forallb assignable p = true ->
            lookup (filtered_of term obj) p = Some node)
        /\ ((exists s, node = VStr s /\ includes (toLowerCase s) term = true)
            \/ (exists p' k, p = p' ++ [k] /\ keyMatches term k = true)).
Proof.
  induction obj as [obj IH] using value_entries_ind. intros W path q Hq.
  destruct (is_container obj) eqn:C.
  - rewrite (dfs_match_paths_container _ _ _ C) in Hq.
    apply in_flat_map in Hq. destruct Hq as [[k v] [Hin Hq]].
    pose proof (In_child _ _ _ W Hin) as Cv.
    unfold entry_paths in Hq; simpl in Hq. apply in_app_or in Hq.
    destruct Hq as [Hq|Hq].
    + destruct (IH k v Hin (wf_child _ _ _ W Hin) _ _ Hq)
        as [p [node [Eq [Lv [Lf M]]]]].
      assert (K : exists x, keep term k v = Some x
                            /\ (forallb assignable p = true ->
                                lookup x p = Some node)).
      { unfold keep. destruct (keyMatches term k); [exists v; auto|].
        destruct (notNull (filtered_of term v)) eqn:N; [eauto|].
        apply (filtered_null_iff term v (path ++ [k])) in N.
        rewrite N in Hq. destruct Hq. }
      destruct K as [x [K Lx]].
      destruct (child_filtered term obj k v x W Cv K) as [Cx _].
      exists (k :: p), node. split; [|split; [|split]].
      * rewrite Eq, <- app_assoc. reflexivity.
      * simpl. rewrite Cv. exact Lv.
      * simpl. intros A. apply andb_prop in A. destruct A as [Ak Ap].
        rewrite (Cx Ak). apply (Lx Ap).
      * destruct M as [M|[p' [k' [Ep Hk]]]]; [left; exact M|right].
        exists (k :: p'), k'. rewrite Ep. auto.
    + unfold key_hit in Hq. destruct (keyMatches term k) eqn:Hk; [|destruct Hq].
      destruct Hq as [Eq|[]].
      assert (K : keep term k v = Some v)
        by (unfold keep; rewrite Hk; reflexivity).
      destruct (child_filtered term obj k v v W Cv K) as [Cx _].
      exists [k], v. split; [auto|]. split; [|split].
      * simpl. rewrite Cv. reflexivity.
      * simpl. intros A. apply andb_prop in A. destruct A as [Ak _].
        rewrite (Cx Ak). reflexivity.
      * right. exists [], k. auto.
  - destruct obj as [| | | |s| |]; try discriminate; try (destruct Hq).
    simpl in Hq. destruct (includes (toLowerCase s) term) eqn:I; [|destruct Hq].
    destruct Hq as [Eq|[]]. exists [], (VStr s). rewrite app_nil_r.
    rewrite filtered_of_str, I. repeat split; auto. left. eauto.
Qed.

(** X2.  Every path of the match list leads to a node of the document that
    is a string whose lowercase form contains the term or sits under a last
    key that contains the term; when none of the keys of the path is
    [__proto__], the path leads to the same node in the pruned tree. *)
Theorem matched_paths_are_matches doc searchTerm q :
  wf doc = true ->
  In q (matched (useMemo doc searchTerm)) ->
  exists node,
    lookup doc q = Some node
    /\ (forallb assignable q = true ->
        lookup (filteredJson (useMemo doc searchTerm)) q = Some node)
    /\ ((exists s, node = VStr s
                   /\ includes (toLowerCase s) (toLowerCase (trim searchTerm))
                      = true)
        \/ (exists p k, q = p ++ [k]
                        /\ keyMatches (toLowerCase (trim searchTerm)) k = true)).
Proof.
  intros W Hq.
  destruct (String.eqb_spec (toLowerCase (trim searchTerm)) "") as [E|T].
  { rewrite useMemo_bypass in Hq by (left; exact E). destruct Hq. }
  destruct (truthy doc) eqn:D.
  2:{ rewrite useMemo_bypass in Hq by (right; exact D). destruct Hq. }
  rewrite (useMemo_active _ _ T D) in *; simpl in *.
  assert (N : notNull (filtered_of (toLowerCase (trim searchTerm)) doc) = true).
  { destruct (notNull (filtered_of _ doc)) eqn:N; [reflexivity|].
    apply (filtered_null_iff _ doc []) in N. rewrite N in Hq. destruct Hq. }
  rewrite (filtered_truthy _ _ T N).
  destruct (dfs_sound _ doc W [] q Hq) as [p [node [Eq [L [Lf M]]]]].
  simpl in Eq. subst p. exists node. auto.
Qed.

Lemma matched_paths_are_matches_example :
  (wf (VObj [("tab", VArr [Some (VStr "cab"); Some (VNum 1)])]) = true
   /\ In ["tab"; "0"]
        (matched (useMemo (VObj [("tab", VArr [Some (VStr "cab");
                                                Some (VNum 1)])]) "AB")))
  /\ exists node,
      lookup (VObj [("tab", VArr [Some (VStr "cab"); Some (VNum 1)])])
        ["tab"; "0"] = Some node
      /\ (forallb assignable ["tab"; "0"] = true ->
          lookup (filteredJson
                    (useMemo (VObj [("tab", VArr [Some (VStr "cab");
                                                   Some (VNum 1)])]) "AB"))
            ["tab"; "0"] = Some node)
      /\ ((exists s, node = VStr s
                     /\ includes (toLowerCase s) (toLowerCase (trim "AB")) = true)
          \/ (exists p k, ["tab"; "0"] = p ++ [k]
                          /\ keyMatches (toLowerCase (trim "AB")) k = true)).
Proof.
  assert (H1 : wf (VObj [("tab", VArr [Some (VStr "cab"); Some (VNum 1)])])
               = true) by reflexivity.
  assert (H2 : In ["tab"; "0"]
                 (matched (useMemo (VObj [("tab", VArr [Some (VStr "cab");
                                                         Some (VNum 1)])])
                             "AB"))) by (left; reflexivity).
  split; [auto|].
  apply (matched_paths_are_matches _ "AB" _ H1 H2).
Defined.

(** ** No empty branch is left behind *)

Lemma proto_free_root obj :
  proto_free obj = true -> child obj "__proto__" = None.
Proof.
  intros P. apply assoc_absent. intros Hin. apply in_map_iff in Hin.
  destruct Hin as [[k c] [E Hin]]. simpl in E. subst k.
  pose proof (proto_free_keys _ P _ _ Hin). discriminate.
Qed.

Lemma filter_no_empty_branch term :
  forall obj,
    wf obj = true ->
    proto_free obj = true ->
    forall p x,
      notNull (filtered_of term obj) = true ->
      lookup (filtered_of term obj) p = Some x ->
      is_container x = true ->
      entries x = [] ->
      exists k, In k p /\ keyMatches term k = true.
Proof.
  induction obj as [obj IH] using value_entries_ind.
  intros W P p x N L Cx Ex. destruct (is_container obj) eqn:C.
  - destruct p as [|k p]; simpl in L.
    + inversion L; subst x.
      destruct (filtered_of_pf term obj W P C) as [[_ E]|[K [_ E]]].
      * rewrite E in N. discriminate.
      * congruence.
    + destruct (child (filtered_of term obj) k) as [y|] eqn:Cy; [|discriminate].
      destruct (child_filtered_inv _ _ _ _ W Cy) as [v [Cv K]].
      apply child_In in Cv.
      destruct (keep_cases _ _ _ _ K) as [[Hk _]|[_ [E Ny]]].
      * exists k. split; [left; reflexivity|exact Hk].
      * subst y.
        destruct (IH k v Cv (wf_child _ _ _ W Cv) (proto_free_child _ _ _ P Cv)
                    p x Ny L Cx Ex)
          as [k' [Hin Hk']].
        exists k'. split; [right; exact Hin|exact Hk'].
  - destruct (filtered_of_leaf term obj C) as [E|E]; rewrite E in *;
      [|discriminate].
    destruct p as [|k p]; simpl in L.
    + inversion L; subst x. congruence.
    + rewrite (child_leaf _ _ C) in L. discriminate.
Qed.

(** X3.  Pruning leaves no empty container behind: for a truthy document
    none of whose objects has a [__proto__] key and a non-empty term, an
    empty mapping or sequence found in the pruned tree is the root standing
    for "no match", or lies on a key-path with a key that contains the term
    (a subtree kept as it was). *)
Theorem pruned_tree_has_no_empty_branch doc searchTerm p x :
  wf doc = true ->
  proto_free doc = true ->
  truthy doc = true ->
  toLowerCase (trim searchTerm) <> "" ->
  lookup (filteredJson (useMemo doc searchTerm)) p = Some x ->
  is_container x = true ->
  entries x = [] ->
  (p = [] /\ matched (useMemo doc searchTerm) = [])
  \/ exists k, In k p /\ keyMatches (toLowerCase (trim searchTerm)) k = true.
Proof.
  intros W P D T L Cx Ex.
  destruct (matched (useMemo doc searchTerm)) as [|m ms] eqn:M.
  - left. split; [|reflexivity].
    apply (useMemo_fallback_iff _ _ W (proto_free_root _ P) D T) in M.
    rewrite M in L. apply (lookup_empty_object _ _ L).
  - right. rewrite (useMemo_active _ _ T D) in *; simpl in *.
    assert (N : notNull (filtered_of (toLowerCase (trim searchTerm)) doc)
                = true).
    { destruct (notNull (filtered_of _ doc)) eqn:N; [reflexivity|].
      apply (filtered_null_iff _ doc []) in N. congruence. }
    rewrite (filtered_truthy _ _ T N) in L.
    apply (filter_no_empty_branch _ doc W P p x N L Cx Ex).
Qed.

Lemma pruned_tree_has_no_empty_branch_example :
  (wf (VObj [("list", VArr []); ("x", VObj [("y", VObj [])])]) = true
   /\ proto_free (VObj [("list", VArr []); ("x", VObj [("y", VObj [])])])
      = true
   /\ truthy (VObj [("list", VArr []); ("x", VObj [("y", VObj [])])]) = true
   /\ toLowerCase (trim "lis") <> ""
   /\ lookup (filteredJson
                (useMemo (VObj [("list", VArr []);
                                ("x", VObj [("y", VObj [])])]) "lis"))
        ["list"] = Some (VArr [])
   /\ is_container (VArr []) = true
   /\ entries (VArr []) = [])
  /\ filteredJson
       (useMemo (VObj [("list", VArr []); ("x", VObj [("y", VObj [])])]) "lis")
     = VObj [("list", VArr [])]
  /\ ((["list"] = [] /\
       matched (useMemo (VObj [("list", VArr []);
                               ("x", VObj [("y", VObj [])])]) "lis") = [])
      \/ exists k, In k ["list"]
                   /\ keyMatches (toLowerCase (trim "lis")) k = true).
Proof.
  split; [repeat split; discriminate|]. split; [reflexivity|].
  apply (pruned_tree_has_no_empty_branch
           (VObj [("list", VArr []); ("x", VObj [("y", VObj [])])]) "lis"
           ["list"] (VArr []) eq_refl eq_refl eq_refl ltac:(discriminate)
           eq_refl eq_refl eq_refl).
Defined.

(** ** A longer term matches less *)

Lemma prefix_spec t :
  forall s, String.prefix t s = true <-> exists b, s = String.append t b.
Proof.
  induction t as [|c t IH]; intros s.
  - destruct s; simpl; split; eauto.
  - destruct s as [|d s]; simpl.
    + split; [discriminate|]. intros [b H]. discriminate.
    + destruct (ascii_dec c d) as [E|NE].
      * subst d. rewrite IH. split; intros [b H]; exists b.
        -- rewrite H. reflexivity.
        -- inversion H. reflexivity.
      * split; [discriminate|]. intros [b H]. congruence.
Qed.

Lemma append_assoc a b c :
  String.append (String.append a b) c = String.append a (String.append b c).
Proof. induction a as [|x a IH]; simpl; [reflexivity|]. rewrite IH. reflexivity. Qed.

Lemma includes_spec s :
  forall t,
    includes s t = true <->
    exists a b, s = String.append a (String.append t b).
Proof.
  induction s as [|c s IH]; intros t; cbn [includes].
  - destruct (String.prefix t "") eqn:P.
    + split; [|reflexivity]. intros _. apply prefix_spec in P.
      destruct P as [b P]. exists "", b. exact P.
    + split; [discriminate|]. intros [a [b H]].
      destruct a; [|discriminate]. simpl in H.
      assert (P' : String.prefix t "" = true)
        by (apply prefix_spec; exists b; exact H).
      congruence.
  - destruct (String.prefix t (String c s)) eqn:P.
    + split; [|reflexivity]. intros _. apply prefix_spec in P.
      destruct P as [b P]. exists "", b. exact P.
    + rewrite IH. split.
      * intros [a [b H]]. exists (String c a), b. rewrite H. reflexivity.
      * intros [a [b H]]. destruct a as [|d a].
        -- simpl in H.
           assert (P' : String.prefix t (String c s) = true)
             by (apply prefix_spec; exists b; exact H).
           congruence.
        -- inversion H. exists a, b. reflexivity.
Qed.

Lemma includes_trans s t u :
  includes s t = true -> includes t u = true -> includes s u = true.
Proof.
  rewrite !includes_spec. intros [a [b H]] [a' [b' H']]. subst.
  exists (String.append a a'), (String.append b' b).
  rewrite !append_assoc. reflexivity.
Qed.

Lemma dfs_narrowing term term' :
  includes term' term = true ->
  forall obj path q,
    In q (dfs_match_paths obj term' path) ->
    In q (dfs_match_paths obj term path).
Proof.
  intros I. induction obj as [obj IH] using value_entries_ind. intros path q Hq.
  destruct (is_container obj) eqn:C.
  - rewrite (dfs_match_paths_container _ term' _ C) in Hq.
    rewrite (dfs_match_paths_container _ term _ C).
    apply in_flat_map in Hq. destruct Hq as [[k v] [Hin Hq]].
    apply in_flat_map. exists (k, v). split; [exact Hin|].
    unfold entry_paths in *; simpl in *. apply in_app_or in Hq.
    apply in_or_app. destruct Hq as [Hq|Hq].
    + left. apply (IH k v Hin _ _ Hq).
    + right. unfold key_hit, keyMatches in *.
      destruct (includes (toLowerCase k) term') eqn:K; [|destruct Hq].
      rewrite (includes_trans _ _ _ K I). exact Hq.
  - destruct obj as [| | | |s| |]; try discriminate; try (destruct Hq).
    simpl in *. destruct (includes (toLowerCase s) term') eqn:K; [|destruct Hq].
    rewrite (includes_trans _ _ _ K I). exact Hq.
Qed.

(** X4.  Refining the search never adds a match: when the non-empty term of
    one search occurs inside the term of another, every path matched by the
    longer term is matched by the shorter one. *)
Theorem longer_term_matches_less doc searchTerm searchTerm' q :
  toLowerCase (trim searchTerm) <> "" ->
  includes (toLowerCase (trim searchTerm')) (toLowerCase (trim searchTerm))
  = true ->
  In q (matched (useMemo doc searchTerm')) ->
  In q (matched (useMemo doc searchTerm)).
Proof.
  intros T I Hq.
  assert (T' : toLowerCase (trim searchTerm') <> "").
  { intros E. rewrite E in I. apply includes_empty in I. contradiction. }
  destruct (truthy doc) eqn:D.
  - rewrite (useMemo_active _ _ T D). rewrite (useMemo_active _ _ T' D) in Hq.
    simpl in *. apply (dfs_narrowing _ _ I _ _ _ Hq).
  - rewrite useMemo_bypass in Hq by (right; exact D). destruct Hq.
Qed.

Lemma longer_term_matches_less_example :
  (toLowerCase (trim "ell") <> ""
   /\ includes (toLowerCase (trim "Hello")) (toLowerCase (trim "ell")) = true
   /\ In ["greeting"]
        (matched (useMemo (VObj [("greeting", VStr "Hello World");
                                 ("other", VStr "bell")]) "Hello")))
  /\ In ["greeting"]
       (matched (useMemo (VObj [("greeting", VStr "Hello World");
                                ("other", VStr "bell")]) "ell")).
Proof.
  assert (H1 : toLowerCase (trim "ell") <> "") by discriminate.
  assert (H2 : includes (toLowerCase (trim "Hello")) (toLowerCase (trim "ell"))
               = true) by reflexivity.
  assert (H3 : In ["greeting"]
                 (matched (useMemo (VObj [("greeting", VStr "Hello World");
                                          ("other", VStr "bell")]) "Hello")))
    by (left; reflexivity).
  split; [auto|].
  apply (longer_term_matches_less _ "ell" "Hello" _ H1 H2 H3).
Defined.

(** * Loading a file *)

(** ** When the extraction throws *)

Lemma getProp_returns v key :
  (exists x, getProp v key = inr x) <-> notNull v = true.
Proof.
  destruct v; simpl; split; intros H; try reflexivity; try discriminate;
    try (destruct H; discriminate); eauto.
Qed.

Lemma optionalProp_returns item field :
  exists x, optionalProp item field = inr x.
Proof.
  unfold optionalProp. destruct (notNull item) eqn:N; [|eauto].
  apply getProp_returns. exact N.
Qed.

Lemma Object_values_returns v :
  notNull v = true -> exists vs, Object_values v = inr vs.
Proof. destruct v; simpl; try discriminate; eauto. Qed.

Lemma orElse_notNull a : notNull (orElse a (VObj [])) = true.
Proof.
  unfold orElse. destruct (truthy a) eqn:T; [|reflexivity].
  apply (truthy_notNull _ T).
Qed.

Lemma mapM_returns {A B : Type} (f : A -> throws B) (l : list A) :
  (exists ys, mapM f l = inr ys) <-> Forall (fun x => exists y, f x = inr y) l.
Proof.
  induction l as [|x l IH]; simpl.
  - split; [constructor|eauto].
  - split.
    + intros [ys H]. unfold bind in H. destruct (f x) as [e|y] eqn:F;
        [discriminate|].
      destruct (mapM f l) as [e|ys'] eqn:M; [discriminate|].
      constructor; [eauto|]. apply IH. eauto.
    + intros H. inversion H as [|? ? [y Hy] Hl]; subst.
      apply IH in Hl. destruct Hl as [ys Hys].
      unfold bind. rewrite Hy, Hys. eauto.
Qed.

Lemma extractSection_try_returns json key field :
  notNull json = true ->
  exists names, extractSection_try json key field = inr names
                /\ Forall (fun x => truthy x = true) names.
Proof.
  intros N. unfold extractSection_try.
  destruct (proj2 (getProp_returns json key) N) as [section Hs].
  rewrite Hs. unfold bind at 1.
  destruct (truthy section) eqn:T; simpl; [|eauto].
  destruct (Object_values_returns _ (truthy_notNull _ T)) as [vs Hv].
  rewrite Hv. unfold bind at 1.
  destruct (proj2 (mapM_returns (fun item => optionalProp item field) vs))
    as [items Hi].
  { apply Forall_forall. intros item _. apply optionalProp_returns. }
  rewrite Hi. simpl. eexists. split; [reflexivity|].
  apply Forall_forall. intros x Hx. apply filter_In in Hx. tauto.
Qed.

Lemma extractSection_truthy json key field :
  Forall (fun x => truthy x = true) (extractSection json key field).
Proof.
  unfold extractSection. destruct (notNull json) eqn:N.
  - destruct (extractSection_try_returns json key field N) as [names [E F]].
    rewrite E. exact F.
  - destruct (extractSection_try json key field) as [e|names] eqn:E;
      [constructor|].
    unfold extractSection_try in E.
    destruct json; try discriminate.
Qed.

Lemma section_values_eq json key :
  notNull json = true ->
  exists section,
    getProp json key = inr section
    /\ Object_values (orElse section (VObj [])) = inr (section_values json key).
Proof.
  intros N. destruct (proj2 (getProp_returns json key) N) as [section Hs].
  exists section. split; [exact Hs|]. unfold section_values. rewrite Hs.
  destruct (Object_values_returns _ (orElse_notNull section)) as [vs Hv].
  rewrite Hv. reflexivity.
Qed.

Lemma filter_truthy_Forall (l : list value) :
  Forall (fun x => truthy x = true) (filter truthy l).
Proof. apply Forall_forall. intros x Hx. apply filter_In in Hx. tauto. Qed.

Lemma extractDataTypes_returns json :
  (exists names, extractDataTypes json = inr names) <->
  notNull json = true
  /\ forallb notNull (section_values json "user_types") = true.
Proof.
  unfold extractDataTypes. destruct (notNull json) eqn:N.
  - destruct (section_values_eq json "user_types" N) as [u [Hu Hv]].
    rewrite Hu. unfold bind at 1. rewrite Hv. unfold bind at 1.
    set (f := fun d : value =>
                name <- getProp d "name" ;;
                (if truthy name then inr name else getProp d "display")).
    assert (Hf : forall d, (exists y, f d = inr y) <-> notNull d = true).
    { intros d. unfold f. split.
      - intros [y H]. destruct d; try reflexivity; discriminate.
      - intros Nd. destruct (proj2 (getProp_returns d "name") Nd) as [n Hn].
        rewrite Hn. unfold bind. destruct (truthy n); [eauto|].
        apply getProp_returns. exact Nd. }
    rewrite forallb_forall. split.
    + intros [names H]. split; [reflexivity|]. intros d Hd.
      destruct (mapM f (section_values json "user_types")) as [e|ys] eqn:M;
        [discriminate|].
      assert (F : Forall (fun x => exists y, f x = inr y)
                    (section_values json "user_types"))
        by (apply mapM_returns; eauto).
      rewrite Forall_forall in F. apply Hf. apply (F d Hd).
    + intros [_ H].
      destruct (proj2 (mapM_returns f (section_values json "user_types")))
        as [ys Hys].
      { apply Forall_forall. intros d Hd. apply Hf. apply (H d Hd). }
      rewrite Hys. simpl. eauto.
  - split.
    + intros [names H]. destruct json; discriminate.
    + intros [H _]. discriminate.
Qed.

Lemma extractWorkflows_returns json :
  (exists names, extractWorkflows json = inr names) <->
  notNull json = true
  /\ forallb notNull (section_values json "api") = true.
Proof.
  unfold extractWorkflows. destruct (notNull json) eqn:N.
  - destruct (section_values_eq json "api" N) as [u [Hu Hv]].
    rewrite Hu. unfold bind at 1. rewrite Hv. unfold bind at 1.
    set (f := fun w : value =>
                properties <- getProp w "properties" ;;
                optionalProp properties "wf_name").
    assert (Hf : forall w, (exists y, f w = inr y) <-> notNull w = true).
    { intros w. unfold f. split.
      - intros [y H]. destruct w; try reflexivity; discriminate.
      - intros Nw.
        destruct (proj2 (getProp_returns w "properties") Nw) as [p Hp].
        rewrite Hp. unfold bind. apply optionalProp_returns. }
    rewrite forallb_forall. split.
    + intros [names H]. split; [reflexivity|]. intros w Hw.
      destruct (mapM f (section_values json "api")) as [e|ys] eqn:M;
        [discriminate|].
      assert (F : Forall (fun x => exists y, f x = inr y)
                    (section_values json "api"))
        by (apply mapM_returns; eauto).
      rewrite Forall_forall in F. apply Hf. apply (F w Hw).
    + intros [_ H].
      destruct (proj2 (mapM_returns f (section_values json "api")))
        as [ys Hys].
      { apply Forall_forall. intros w Hw. apply Hf. apply (H w Hw). }
      rewrite Hys. simpl. eauto.
  - split.
    + intros [names H]. destruct json; discriminate.
    + intros [H _]. discriminate.
Qed.

Lemma extractDataTypes_truthy json names :
  extractDataTypes json = inr names ->
  Forall (fun x => truthy x = true) names.
Proof.
  unfold extractDataTypes, bind. intros H.
  destruct (getProp json "user_types"); [discriminate|].
  destruct (Object_values _); [discriminate|].
  destruct (mapM _ _); [discriminate|].
  inversion H. apply filter_truthy_Forall.
Qed.

Lemma extractWorkflows_truthy json names :
  extractWorkflows json = inr names ->
  Forall (fun x => truthy x = true) names.
Proof.
  unfold extractWorkflows, bind. intros H.
  destruct (getProp json "api"); [discriminate|].
  destruct (Object_values _); [discriminate|].
  destruct (mapM _ _); [discriminate|].
  inversion H. apply filter_truthy_Forall.
Qed.

(** ** Invariants of the state *)

Lemma run_invariant (P : app_state -> Prop) :
  P initial_state ->
  (forall st e, P st -> P (step st e)) ->
  forall events, P (run events).
Proof.
  intros H0 Hstep events. unfold run. revert H0.
  generalize initial_state as st.
  induction events as [|e es IH]; intros st H; simpl; [exact H|].
  apply IH. apply Hstep. exact H.
Qed.

(** X5.  Whatever happens, the "API Names" list is the "Workflows" list:
    both are computed by the same expression over [json.api], and an
    exception leaves both as they were. *)
Theorem api_names_are_workflows events :
  st_apiNames (run events) = st_workflows (run events).
Proof.
  apply (run_invariant (fun st => st_apiNames st = st_workflows st));
    [reflexivity|].
  intros st e H. destruct e as [file|file|parsed| | | | |]; simpl; try exact H.
  - destruct file as [f|]; simpl; [|exact H].
    destruct (_ <? file_size f)%N; exact H.
  - unfold handleFile. destruct file as [f|]; simpl; [|exact H].
    destruct (_ <? file_size f)%N; exact H.
  - destruct parsed as [err|json]; simpl; [exact H|].
    destruct (extractDataTypes json); simpl; [exact H|].
    destruct (extractWorkflows json); simpl; [exact H|reflexivity].
Qed.

(** The six lists of names. *)
Lemma step_lists_truthy st e :
  let ok (l : list value) := Forall (fun x => truthy x = true) l in
  (ok (st_optionSets st) /\ ok (st_dataTypes st) /\ ok (st_pages st)
   /\ ok (st_reusableElements st) /\ ok (st_workflows st)
   /\ ok (st_apiNames st)) ->
  (ok (st_optionSets (step st e)) /\ ok (st_dataTypes (step st e))
   /\ ok (st_pages (step st e)) /\ ok (st_reusableElements (step st e))
   /\ ok (st_workflows (step st e)) /\ ok (st_apiNames (step st e))).
Proof.
  intros ok H. destruct e as [file|file|parsed| | | | |]; simpl; try exact H.
  - destruct file as [f|]; simpl; [|exact H].
    destruct (_ <? file_size f)%N; exact H.
  - unfold handleFile. destruct file as [f|]; simpl; [|exact H].
    destruct (_ <? file_size f)%N; exact H.
  - destruct H as [H1 [H2 [H3 [H4 [H5 H6]]]]].
    destruct parsed as [err|json]; simpl; [tauto|].
    pose proof (extractSection_truthy json "option_sets" "display") as S1.
    pose proof (extractSection_truthy json "pages" "name") as S2.
    pose proof (extractSection_truthy json "element_definitions" "name") as S3.
    destruct (extractDataTypes json) as [e|dts] eqn:D; simpl; [tauto|].
    apply extractDataTypes_truthy in D.
    destruct (extractWorkflows json) as [e|wfs] eqn:Wf; simpl; [tauto|].
    apply extractWorkflows_truthy in Wf. tauto.
Qed.

(** X6.  Whatever happens, the six lists shown in the results panel hold
    truthy values only: no empty, null or missing name is ever listed. *)
Theorem lists_hold_truthy_names events :
  Forall (fun x => truthy x = true) (st_optionSets (run events))
  /\ Forall (fun x => truthy x = true) (st_dataTypes (run events))
  /\ Forall (fun x => truthy x = true) (st_pages (run events))
  /\ Forall (fun x => truthy x = true) (st_reusableElements (run events))
  /\ Forall (fun x => truthy x = true) (st_workflows (run events))
  /\ Forall (fun x => truthy x = true) (st_apiNames (run events)).
Proof.
  apply (run_invariant
           (fun st =>
              Forall (fun x => truthy x = true) (st_optionSets st)
              /\ Forall (fun x => truthy x = true) (st_dataTypes st)
              /\ Forall (fun x => truthy x = true) (st_pages st)
              /\ Forall (fun x => truthy x = true) (st_reusableElements st)
              /\ Forall (fun x => truthy x = true) (st_workflows st)
              /\ Forall (fun x => truthy x = true) (st_apiNames st))).
  - simpl. repeat split; constructor.
  - intros st e H. apply (step_lists_truthy st e H).
Qed.

(** ** A parsed document that still reports an error *)

Lemma loads_clean_iff json :
  loads_clean json = true <->
  (exists dts, extractDataTypes json = inr dts)
  /\ (exists wfs, extractWorkflows json = inr wfs).
Proof.
  rewrite extractDataTypes_returns, extractWorkflows_returns.
  unfold loads_clean. rewrite !andb_true_iff. tauto.
Qed.

(** X7.  [reader.onload] on a parsed document always stores the document
    and the option sets; starting without an error, it ends without one
    exactly when the document is not null and no value of its [user_types]
    or of its [api] is null or undefined.  Otherwise the document is shown
    together with an "Error parsing file" message. *)
Theorem onload_error_iff json st :
  st_error st = None ->
  (st_error (onload (inr json) st) = None <-> loads_clean json = true)
  /\ (loads_clean json = false ->
      exists v key,
        st_error (onload (inr json) st)
        = Some (ErrorParsing (TypeError_read v key)))
  /\ st_jsonData (onload (inr json) st) = json
  /\ st_optionSets (onload (inr json) st)
     = extractSection json "option_sets" "display".
Proof.
  intros E. pose proof (loads_clean_iff json) as C. unfold onload.
  destruct (extractDataTypes json) as [e|dts] eqn:D; simpl.
  - assert (L : loads_clean json = false).
    { destruct (loads_clean json); [|reflexivity].
      destruct (proj1 C eq_refl) as [[x Hx] _]. discriminate. }
    rewrite L. repeat split; try discriminate.
    intros _. unfold extractDataTypes, bind in D.
    destruct (getProp json "user_types") eqn:G.
    + destruct json; try discriminate; inversion G; inversion D; subst; eauto.
    + destruct (Object_values _) eqn:O.
      * pose proof (Object_values_returns _ (orElse_notNull v)) as [vs Hv].
        congruence.
      * destruct (mapM _ l) as [e'|ys] eqn:M; [|discriminate].
        inversion D; subst e'. clear -M. induction l as [|d l IH];
          simpl in M; [discriminate|]. unfold bind in M.
        destruct (getProp d "name") eqn:Gn.
        -- destruct d; try discriminate; inversion Gn; inversion M; subst;
             eauto.
        -- destruct (truthy v).
           ++ destruct (mapM _ l) eqn:M'; [|discriminate].
              apply IH. congruence.
           ++ destruct (getProp d "display") eqn:Gd.
              ** destruct d; try discriminate.
              ** destruct (mapM _ l) eqn:M'; [|discriminate].
                 apply IH. congruence.
  - destruct (extractWorkflows json) as [e|wfs] eqn:Wf; simpl.
    + assert (L : loads_clean json = false).
      { destruct (loads_clean json); [|reflexivity].
        destruct (proj1 C eq_refl) as [_ [x Hx]]. discriminate. }
      rewrite L. repeat split; try discriminate.
      intros _. unfold extractWorkflows, bind in Wf.
      destruct (getProp json "api") eqn:G.
      * destruct json; try discriminate; inversion G; inversion Wf; subst;
          eauto.
      * destruct (Object_values _) eqn:O.
        -- pose proof (Object_values_returns _ (orElse_notNull v)) as [vs Hv].
           congruence.
        -- destruct (mapM _ l) as [e'|ys] eqn:M; [|discriminate].
           inversion Wf; subst e'. clear -M. induction l as [|w l IH];
             simpl in M; [discriminate|]. unfold bind in M.
           destruct (getProp w "properties") eqn:Gp.
           ++ destruct w; try discriminate; inversion Gp; inversion M; subst;
                eauto.
           ++ destruct (optionalProp_returns v "wf_name") as [x Hx].
              rewrite Hx in M.
              destruct (mapM _ l) eqn:M'; [|discriminate].
              apply IH. congruence.
    + assert (L : loads_clean json = true) by (apply C; eauto).
      rewrite L, E. repeat split; discriminate.
Qed.

Lemma onload_error_iff_example :
  st_error initial_state = None
  /\ loads_clean (VObj [("user_types", VObj [("a", VNull)])]) = false
  /\ st_jsonData
       (onload (inr (VObj [("user_types", VObj [("a", VNull)])]))
          initial_state)
     = VObj [("user_types", VObj [("a", VNull)])]
  /\ st_error
       (onload (inr (VObj [("user_types", VObj [("a", VNull)])]))
          initial_state)
     = Some (ErrorParsing (TypeError_read VNull "name")).
Proof.
  split; [reflexivity|]. split; [reflexivity|]. split; [|reflexivity].
  apply (onload_error_iff (VObj [("user_types", VObj [("a", VNull)])])
           initial_state eq_refl).
Defined.

(** X8.  When [reader.onload] runs into a [TypeError], the document is
    replaced all the same while the "Workflows" and "API Names" lists stay
    those of the previous file. *)
Theorem faulty_load_keeps_previous_workflows json st :
  loads_clean json = false ->
  st_jsonData (onload (inr json) st) = json
  /\ st_workflows (onload (inr json) st) = st_workflows st
  /\ st_apiNames (onload (inr json) st) = st_apiNames st.
Proof.
  intros L. pose proof (loads_clean_iff json) as C. unfold onload.
  destruct (extractDataTypes json) as [e|dts] eqn:D; simpl; [auto|].
  destruct (extractWorkflows json) as [e|wfs] eqn:Wf; simpl; [auto|].
  assert (loads_clean json = true) by (apply C; eauto). congruence.
Qed.

Lemma faulty_load_keeps_previous_workflows_example :
  loads_clean (VObj [("api", VObj [("w", VNull)])]) = false
  /\ st_workflows
       (onload (inr (VObj [("api", VObj [("w", VNull)])]))
          (onload (inr (VObj [("api",
                               VObj [("w", VObj [("properties",
                                                  VObj [("wf_name",
                                                         VStr "send")])])])]))
             initial_state))
     = [VStr "send"].
Proof.
  split; [reflexivity|].
  rewrite (proj1 (proj2 (faulty_load_keeps_previous_workflows
                           (VObj [("api", VObj [("w", VNull)])]) _ eq_refl))).
  reflexivity.
Defined.

(** X9.  A document that loads without a [TypeError] replaces the document
    and all six lists by values computed from the document alone: nothing of
    the previous state is left in them. *)
Theorem clean_load_replaces_lists json st st' :
  loads_clean json = true ->
  st_jsonData (onload (inr json) st) = st_jsonData (onload (inr json) st')
  /\ st_optionSets (onload (inr json) st)
     = st_optionSets (onload (inr json) st')
  /\ st_dataTypes (onload (inr json) st)
     = st_dataTypes (onload (inr json) st')
  /\ st_pages (onload (inr json) st) = st_pages (onload (inr json) st')
  /\ st_reusableElements (onload (inr json) st)
     = st_reusableElements (onload (inr json) st')
  /\ st_workflows (onload (inr json) st)
     = st_workflows (onload (inr json) st')
  /\ st_apiNames (onload (inr json) st)
     = st_apiNames (onload (inr json) st').
Proof.
  intros L. apply loads_clean_iff in L. destruct L as [[dts D] [wfs Wf]].
  unfold onload. rewrite D, Wf. simpl. repeat split.
Qed.

Lemma clean_load_replaces_lists_example :
  loads_clean (VObj [("pages", VObj [("p1", VObj [("name", VStr "index")]);
                                     ("p2", VObj [("name", VStr "")]);
                                     ("p3", VNull)])]) = true
  /\ st_pages
       (onload (inr (VObj [("pages",
                            VObj [("p1", VObj [("name", VStr "index")]);
                                  ("p2", VObj [("name", VStr "")]);
                                  ("p3", VNull)])]))
          (onload (inr (VObj [("pages",
                               VObj [("old", VObj [("name", VStr "gone")])])]))
             initial_state))
     = [VStr "index"].
Proof.
  split; [reflexivity|].
  rewrite (proj1 (proj2 (proj2 (proj2
             (clean_load_replaces_lists
                (VObj [("pages", VObj [("p1", VObj [("name", VStr "index")]);
                                       ("p2", VObj [("name", VStr "")]);
                                       ("p3", VNull)])])
                _ initial_state eq_refl))))).
  reflexivity.
Defined.

(** ** Choosing a file *)

(** X10.  [handleFile] starts reading exactly when a file is given whose
    size is at most 50 * 1024 * 1024 = 52428800 bytes; one byte more sets
    the "File too large" error.  In every case the document becomes null,
    the search box and the match list are emptied and the six lists are left
    as they were. *)
Theorem handleFile_reads_up_to_50MB file st :
  (snd (handleFile file st) = true <->
   exists f, file = Some f /\ (file_size f <= 52428800)%N)
  /\ (st_error (fst (handleFile file st)) = Some FileTooLarge <->
      exists f, file = Some f /\ (52428800 < file_size f)%N)
  /\ (st_error (fst (handleFile file st)) = None
      \/ st_error (fst (handleFile file st)) = Some FileTooLarge)
  /\ st_jsonData (fst (handleFile file st)) = VNull
  /\ st_searchTerm (fst (handleFile file st)) = ""
  /\ st_matchedPaths (fst (handleFile file st)) = []
  /\ st_optionSets (fst (handleFile file st)) = st_optionSets st
  /\ st_dataTypes (fst (handleFile file st)) = st_dataTypes st
  /\ st_pages (fst (handleFile file st)) = st_pages st
  /\ st_reusableElements (fst (handleFile file st)) = st_reusableElements st
  /\ st_workflows (fst (handleFile file st)) = st_workflows st
  /\ st_apiNames (fst (handleFile file st)) = st_apiNames st.
Proof.
  unfold handleFile. destruct file as [f|]; simpl.
  - change (50 * 1024 * 1024)%N with 52428800%N.
    destruct (N.ltb_spec 52428800 (file_size f)) as [H|H]; simpl.
    + repeat split; auto; try discriminate.
      * intros [f' [E H']]. inversion E; subst. lia.
      * exists f. auto.
    + repeat split; auto; try discriminate.
      * exists f. auto.
      * intros [f' [E H']]. inversion E; subst. lia.
  - repeat split; auto; try discriminate;
      intros [f [E _]]; discriminate.
Qed.

(** X11.  When [JSON.parse] throws after a file was chosen, the message is
    shown and the document stays null, but the six lists are still those of
    the file loaded before, and the results panel stays up exactly when that
    file had pages. *)
Theorem failed_parse_keeps_previous_lists file err st :
  st_error (onload (inl err) (fst (handleFile file st)))
  = Some (ErrorParsing err)
  /\ st_jsonData (onload (inl err) (fst (handleFile file st))) = VNull
  /\ st_optionSets (onload (inl err) (fst (handleFile file st)))
     = st_optionSets st
  /\ st_dataTypes (onload (inl err) (fst (handleFile file st)))
     = st_dataTypes st
  /\ st_pages (onload (inl err) (fst (handleFile file st))) = st_pages st
  /\ st_reusableElements (onload (inl err) (fst (handleFile file st)))
     = st_reusableElements st
  /\ st_workflows (onload (inl err) (fst (handleFile file st)))
     = st_workflows st
  /\ st_apiNames (onload (inl err) (fst (handleFile file st)))
     = st_apiNames st
  /\ hasData (onload (inl err) (fst (handleFile file st)))
     = (0 <? List.length (st_pages st))%nat.
Proof.
  unfold handleFile, hasData. destruct file as [f|]; simpl.
  - destruct (_ <? file_size f)%N; simpl; rewrite ?orb_false_r;
      repeat split.
  - rewrite orb_false_r. repeat split.
Qed.

(** X12.  Loading resets the search: after [handleFile] and [reader.onload]
    on a parsed document, whatever was typed before, the memo shows the
    whole document with an empty match list. *)
Theorem load_shows_whole_document file json st :
  useMemo (st_jsonData (onload (inr json) (fst (handleFile file st))))
    (st_searchTerm (onload (inr json) (fst (handleFile file st))))
  = {| filteredJson := json; matched := [] |}.
Proof.
  assert (E : st_searchTerm (onload (inr json) (fst (handleFile file st))) = ""
              /\ st_jsonData (onload (inr json) (fst (handleFile file st)))
                 = json).
  { unfold onload.
    destruct (extractDataTypes json); simpl;
      [|destruct (extractWorkflows json); simpl];
      (split; [|reflexivity]);
      unfold handleFile; destruct file as [f|]; simpl; try reflexivity;
      destruct (_ <? file_size f)%N; reflexivity. }
  destruct E as [E1 E2]. rewrite E1, E2. reflexivity.
Qed.

(** * Further properties of the initial expansion *)

Lemma prefix_append a b : String.prefix a (String.append a b) = true.
Proof. apply prefix_spec. exists b. reflexivity. Qed.

Lemma prefix_append_both a x y :
  String.prefix (String.append a x) (String.append a y) = String.prefix x y.
Proof.
  induction a as [|c a IH]; simpl; [reflexivity|].
  destruct (ascii_dec c c) as [_|NE]; [exact IH|contradiction].
Qed.

Lemma prefix_empty s : String.prefix "" s = true.
Proof. destruct s; reflexivity. Qed.

Lemma join_prefix sep (P : list string) :
  forall Q, String.prefix (join sep P) (join sep (P ++ Q)) = true.
Proof.
  unfold join. induction P as [|a P IH]; intros Q.
  - apply prefix_empty.
  - destruct P as [|b P].
    + destruct Q as [|c Q]; simpl.
      * rewrite <- (prefix_append a ""). f_equal.
        clear. induction a as [|x a IH]; simpl; congruence.
      * apply prefix_append.
    + change (String.prefix
                (String.append a (String.append sep (String.concat sep (b :: P))))
                (String.append a
                   (String.append sep
                      (String.concat sep ((b :: P) ++ Q)))) = true).
      rewrite !prefix_append_both. apply IH.
Qed.

Lemma expand_on_prefix searchTerm matchedPaths keyPath rest :
  searchTerm <> "" ->
  In (keyPath ++ rest) matchedPaths ->
  shouldExpandNodeInitially searchTerm matchedPaths keyPath = true.
Proof.
  intros T Hin. unfold shouldExpandNodeInitially.
  apply String.eqb_neq in T. rewrite T. simpl.
  apply existsb_exists. exists (keyPath ++ rest). split; [exact Hin|].
  apply join_prefix.
Qed.

(** X13.  Under an active search, every key-path that leads towards a
    matching string starts expanded: when the document holds at
    [keyPath ++ rest] a string whose lowercase form contains the non-empty
    term, the callback answers true on [keyPath] for the match list of the
    memo. *)
Theorem paths_towards_a_match_expand doc searchTerm keyPath rest s :
  wf doc = true ->
  toLowerCase (trim searchTerm) <> "" ->
  lookup doc (keyPath ++ rest) = Some (VStr s) ->
  includes (toLowerCase s) (toLowerCase (trim searchTerm)) = true ->
  shouldExpandNodeInitially searchTerm (matched (useMemo doc searchTerm))
    keyPath = true.
Proof.
  intros W T L I.
  assert (S : searchTerm <> "") by (intros E; subst; apply T; reflexivity).
  apply (expand_on_prefix _ _ _ rest S).
  rewrite (useMemo_active _ _ T (lookup_truthy _ _ _ _ L I T)); simpl.
  apply (match_path_recorded _ _ doc s L I []).
Qed.

Lemma paths_towards_a_match_expand_example :
  (wf (VObj [("pages", VArr [Some (VObj [("name", VStr "Home")])])]) = true
   /\ toLowerCase (trim "home") <> ""
   /\ lookup (VObj [("pages", VArr [Some (VObj [("name", VStr "Home")])])])
        (["pages"; "0"] ++ ["name"]) = Some (VStr "Home")
   /\ includes (toLowerCase "Home") (toLowerCase (trim "home")) = true)
  /\ shouldExpandNodeInitially "home"
       (matched (useMemo (VObj [("pages",
                                 VArr [Some (VObj [("name", VStr "Home")])])])
                   "home"))
       ["pages"; "0"] = true.
Proof.
  split; [repeat split; discriminate|].
  apply (paths_towards_a_match_expand
           (VObj [("pages", VArr [Some (VObj [("name", VStr "Home")])])])
           "home" ["pages"; "0"] ["name"] "Home"
           eq_refl ltac:(discriminate) eq_refl eq_refl).
Defined.

(** X14.  A search box that holds white space only counts as an active
    search for the callback but as no search for the memo: the whole document
    is shown and no node at all starts expanded. *)
Theorem blank_search_collapses_everything doc searchTerm keyPath :
  searchTerm <> "" ->
  toLowerCase (trim searchTerm) = "" ->
  filteredJson (useMemo doc searchTerm) = doc
  /\ shouldExpandNodeInitially searchTerm (matched (useMemo doc searchTerm))
       keyPath = false.
Proof.
  intros S T. rewrite useMemo_bypass by (left; exact T). simpl.
  split; [reflexivity|]. unfold shouldExpandNodeInitially.
  apply String.eqb_neq in S. rewrite S. reflexivity.
Qed.

Lemma blank_search_collapses_everything_example :
  ("  " <> "" /\ toLowerCase (trim "  ") = "")
  /\ filteredJson (useMemo (VObj [("a", VStr "b")]) "  ")
     = VObj [("a", VStr "b")]
  /\ shouldExpandNodeInitially "  "
       (matched (useMemo (VObj [("a", VStr "b")]) "  ")) ["a"] = false.
Proof.
  split; [split; [discriminate|reflexivity]|].
  apply (blank_search_collapses_everything (VObj [("a", VStr "b")]) "  "
           ["a"] ltac:(discriminate) eq_refl).
Defined.

(** X15.  Under an active search the empty key-path starts expanded exactly
    when at least one match was recorded. *)
Theorem root_expands_iff_some_match searchTerm matchedPaths :
  searchTerm <> "" ->
  shouldExpandNodeInitially searchTerm matchedPaths [] = true <->
  matchedPaths <> [].
Proof.
  intros S. unfold shouldExpandNodeInitially.
  apply String.eqb_neq in S. rewrite S. simpl.
  destruct matchedPaths as [|mp mps]; simpl.
  - split; [discriminate|]. intros H. contradiction.
  - unfold startsWith. rewrite prefix_empty. simpl. split; [discriminate|].
    reflexivity.
Qed.

Lemma root_expands_iff_some_match_example :
  "x" <> ""
  /\ shouldExpandNodeInitially "x" [["a"; "bx"]] [] = true
  /\ shouldExpandNodeInitially "x" [] [] = false.
Proof.
  split; [discriminate|]. split; [|reflexivity].
  apply (proj2 (root_expands_iff_some_match "x" [["a"; "bx"]]
                  ltac:(discriminate))).
  discriminate.
Defined.

(** * Filtering twice *)

Lemma build_sets term es :
  forall r,
    build term es r =
    fold_left (fun r kv => set r (fst kv) (snd kv)) (kept term es) r.
Proof.
  induction es as [|[k v] es IH]; intros r; [reflexivity|].
  rewrite build_cons, kept_cons, fold_left_app, IH.
  destruct (keep term k v); reflexivity.
Qed.

Lemma kept_fixed term es :
  (forall k x, In (k, x) es -> keep term k x = Some x) ->
  kept term es = es.
Proof.
  induction es as [|[k x] es IH]; intros H; [reflexivity|].
  rewrite kept_cons, (H k x (or_introl eq_refl)), IH; [reflexivity|].
  intros k' x' Hin. apply (H k' x'). right. exact Hin.
Qed.

Lemma same_kind_emptyLike a b : same_kind a b = true -> emptyLike a = emptyLike b.
Proof. destruct a, b; simpl; try discriminate; reflexivity. Qed.

Lemma filtered_of_idempotent term :
  forall obj,
    wf obj = true ->
    proto_free obj = true ->
    filtered_of term (filtered_of term obj) = filtered_of term obj.
Proof.
  induction obj as [obj IH] using value_entries_ind. intros W P.
  destruct (is_container obj) eqn:C.
  - destruct (filtered_of_pf term obj W P C) as [[_ E]|[K [S E]]].
    + rewrite E. reflexivity.
    + assert (F : kept term (kept term (entries obj)) = kept term (entries obj)).
      { apply kept_fixed. intros k x Hin. apply In_kept in Hin.
        destruct Hin as [v [Hin Hk]].
        destruct (keep_cases _ _ _ _ Hk) as [[Hm Ex]|[Hm [Ex N]]]; subst x.
        - unfold keep. rewrite Hm. reflexivity.
        - unfold keep. rewrite Hm.
          rewrite (IH k v Hin (wf_child _ _ _ W Hin)
                     (proto_free_child _ _ _ P Hin)), N.
          reflexivity. }
      rewrite (filtered_of_container term (filtered_of term obj)
                 (same_kind_container _ _ S)).
      rewrite E. destruct (any_kept term (kept term (entries obj))) eqn:A.
      * rewrite build_sets, F, (same_kind_emptyLike _ _ S), <- build_sets.
        rewrite (filtered_of_container _ _ C).
        destruct (any_kept term (entries obj)) eqn:A'; [reflexivity|].
        apply any_kept_false in A'. contradiction.
      * apply any_kept_false in A. rewrite F in A. contradiction.
  - destruct obj as [| | | |s| |]; try discriminate; try reflexivity.
    rewrite filtered_of_str. destruct (includes (toLowerCase s) term) eqn:I.
    + rewrite filtered_of_str, I. reflexivity.
    + reflexivity.
Qed.

Lemma kept_paths term path es :
  (forall k v, In (k, v) es ->
               forall p, dfs_match_paths (filtered_of term v) term p
                         = dfs_match_paths v term p) ->
  flat_map (entry_paths term path) (kept term es)
  = flat_map (entry_paths term path) es.
Proof.
  induction es as [|[k v] es IH]; intros H; [reflexivity|].
  rewrite kept_cons, flat_map_app. cbn [flat_map].
  rewrite IH by (intros k' v' Hin; apply (H k' v'); right; exact Hin).
  f_equal. destruct (keep term k v) as [x|] eqn:K.
  - simpl. rewrite app_nil_r.
    destruct (keep_cases _ _ _ _ K) as [[_ Ex]|[_ [Ex _]]]; subst x;
      [reflexivity|].
    unfold entry_paths; simpl. rewrite (H k v (or_introl eq_refl)).
    reflexivity.
  - simpl. symmetry.
    apply (keep_none_paths term path k v (filtered_null_iff term v)).
    exact K.
Qed.

Lemma filtered_same_paths term :
  forall obj,
    wf obj = true ->
    proto_free obj = true ->
    forall path,
      dfs_match_paths (filtered_of term obj) term path
      = dfs_match_paths obj term path.
Proof.
  induction obj as [obj IH] using value_entries_ind. intros W P path.
  destruct (is_container obj) eqn:C.
  - destruct (filtered_of_pf term obj W P C) as [[_ E]|[K [S E]]].
    + rewrite E. simpl. symmetry. apply filtered_null_iff. rewrite E.
      reflexivity.
    + rewrite (dfs_match_paths_container _ _ _ (same_kind_container _ _ S)).
      rewrite (dfs_match_paths_container _ _ _ C), E.
      apply kept_paths. intros k v Hin p.
      apply (IH k v Hin (wf_child _ _ _ W Hin) (proto_free_child _ _ _ P Hin)).
  - destruct obj as [| | | |s| |]; try discriminate; try reflexivity.
    rewrite filtered_of_str. simpl.
    destruct (includes (toLowerCase s) term) eqn:I; simpl; rewrite ?I;
      reflexivity.
Qed.

(** X16.  Filtering is idempotent on a document none of whose objects has a
    [__proto__] key: running the memo on its own pruned tree with the same
    search box gives the same pruned tree and the same match list. *)
Theorem useMemo_idempotent doc searchTerm :
  wf doc = true ->
  proto_free doc = true ->
  useMemo (filteredJson (useMemo doc searchTerm)) searchTerm
  = useMemo doc searchTerm.
Proof.
  intros W P.
  destruct (String.eqb_spec (toLowerCase (trim searchTerm)) "") as [E|T].
  { rewrite !useMemo_bypass by (left; exact E). reflexivity. }
  destruct (truthy doc) eqn:D.
  2:{ rewrite (useMemo_bypass doc) by (right; exact D). simpl.
      apply useMemo_bypass. right. exact D. }
  rewrite (useMemo_active doc _ T D). simpl.
  set (term := toLowerCase (trim searchTerm)) in *.
  destruct (truthy (filtered_of term doc)) eqn:Tr.
  - rewrite (useMemo_active _ _ T Tr). fold term.
    rewrite (filtered_of_idempotent term doc W P), Tr.
    rewrite (filtered_same_paths term doc W P). reflexivity.
  - rewrite (useMemo_active (VObj []) _ T eq_refl). fold term.
    assert (N : notNull (filtered_of term doc) = false).
    { destruct (notNull (filtered_of term doc)) eqn:N; [|reflexivity].
      rewrite (filtered_truthy _ _ T N) in Tr. discriminate. }
    apply (filtered_null_iff term doc []) in N. rewrite N. reflexivity.
Qed.

Lemma useMemo_idempotent_example :
  (wf (VArr [Some (VStr "no"); Some (VObj [("k1", VStr "x"); ("b", VNum 1)]);
             Some (VObj [("1", VStr "y")])]) = true
   /\ proto_free
        (VArr [Some (VStr "no"); Some (VObj [("k1", VStr "x"); ("b", VNum 1)]);
               Some (VObj [("1", VStr "y")])]) = true)
  /\ filteredJson
       (useMemo (VArr [Some (VStr "no");
                       Some (VObj [("k1", VStr "x"); ("b", VNum 1)]);
                       Some (VObj [("1", VStr "y")])]) "1")
     = VArr [None; Some (VObj [("k1", VStr "x"); ("b", VNum 1)]);
             Some (VObj [("1", VStr "y")])]
  /\ useMemo (filteredJson
                (useMemo (VArr [Some (VStr "no");
                                Some (VObj [("k1", VStr "x"); ("b", VNum 1)]);
                                Some (VObj [("1", VStr "y")])]) "1")) "1"
     = useMemo (VArr [Some (VStr "no");
                      Some (VObj [("k1", VStr "x"); ("b", VNum 1)]);
                      Some (VObj [("1", VStr "y")])]) "1".
Proof.
  split; [split; reflexivity|]. split; [reflexivity|].
  apply (useMemo_idempotent
           (VArr [Some (VStr "no");
                  Some (VObj [("k1", VStr "x"); ("b", VNum 1)]);
                  Some (VObj [("1", VStr "y")])]) "1" eq_refl eq_refl).
Defined.

(** * The lists of names *)

Lemma mapM_Forall2 {A B : Type} (f : A -> throws B) (l : list A) ys :
  mapM f l = inr ys -> Forall2 (fun x y => f x = inr y) l ys.
Proof.
  revert ys. induction l as [|x l IH]; simpl; intros ys H.
  - inversion H. constructor.
  - unfold bind in H. destruct (f x) as [e|y] eqn:F; [discriminate|].
    destruct (mapM f l) as [e|ys'] eqn:M; [discriminate|].
    inversion H; subst. constructor; [exact F|]. apply IH. reflexivity.
Qed.

Lemma filter_all (l : list value) :
  Forall (fun x => truthy x = true) l -> filter truthy l = l.
Proof.
  induction 1 as [|x l Hx _ IH]; simpl; [reflexivity|].
  rewrite Hx, IH. reflexivity.
Qed.

(** X17.  [extractSection] loses nothing of a section whose values all have
    a truthy [field]: the list holds, value by value and in the order of the
    section, what is found under [field]. *)
Theorem extractSection_lists_every_entry json key field section values :
  getProp json key = inr section ->
  truthy section = true ->
  Object_values section = inr values ->
  Forall (fun item => exists x, optionalProp item field = inr x
                                /\ truthy x = true) values ->
  Forall2 (fun item x => optionalProp item field = inr x)
    values (extractSection json key field).
Proof.
  intros G T O F. unfold extractSection, extractSection_try.
  rewrite G. unfold bind at 1. rewrite T. simpl. rewrite O. unfold bind at 1.
  destruct (mapM (fun item => optionalProp item field) values) as [e|items]
    eqn:M.
  - exfalso.
    assert (R : exists ys, mapM (fun item => optionalProp item field) values
                           = inr ys).
    { apply mapM_returns. apply Forall_forall. intros item _.
      apply optionalProp_returns. }
    destruct R as [ys R]. congruence.
  - simpl. apply mapM_Forall2 in M. rewrite filter_all; [exact M|].
    clear -M F. induction M as [|item x values items Hx _ IH];
      [constructor|].
    inversion F as [|? ? [x' [Hx' Tx]] F']; subst.
    constructor; [congruence|]. apply IH. exact F'.
Qed.

Lemma extractSection_lists_every_entry_example :
  extractSection
    (VObj [("pages", VObj [("a", VObj [("name", VStr "index")]);
                           ("b", VObj [("name", VStr "404")])])])
    "pages" "name"
  = [VStr "index"; VStr "404"]
  /\ Forall2 (fun item x => optionalProp item "name" = inr x)
       [VObj [("name", VStr "index")]; VObj [("name", VStr "404")]]
       (extractSection
          (VObj [("pages", VObj [("a", VObj [("name", VStr "index")]);
                                 ("b", VObj [("name", VStr "404")])])])
          "pages" "name").
Proof.
  split; [reflexivity|].
  apply (extractSection_lists_every_entry
           (VObj [("pages", VObj [("a", VObj [("name", VStr "index")]);
                                  ("b", VObj [("name", VStr "404")])])])
           "pages" "name"
           (VObj [("a", VObj [("name", VStr "index")]);
                  ("b", VObj [("name", VStr "404")])])
           [VObj [("name", VStr "index")]; VObj [("name", VStr "404")]]
           eq_refl eq_refl eq_refl).
  repeat constructor; eexists; split; reflexivity.
Defined.

(** * The name of a downloaded file *)

Lemma replaceWhitespace_no_space s :
  forall inRun,
    forallb (fun c => negb (is_space c))
      (list_ascii_of_string (replaceWhitespace inRun s)) = true.
Proof.
  induction s as [|c s IH]; intros inRun; simpl; [reflexivity|].
  destruct (is_space c) eqn:Sp.
  - destruct inRun; simpl; apply IH.
  - simpl. rewrite Sp. simpl. apply IH.
Qed.

Lemma list_ascii_of_append a b :
  list_ascii_of_string (String.append a b)
  = list_ascii_of_string a ++ list_ascii_of_string b.
Proof. induction a as [|c a IH]; simpl; [reflexivity|]. rewrite IH. reflexivity. Qed.

(** X18.  The file name offered for a download holds no white space,
    whatever the title of the section: every run of white space of the
    lowercased title has become an underscore before ".json" is added. *)
Theorem downloadFileName_has_no_whitespace title :
  forallb (fun c => negb (is_space c))
    (list_ascii_of_string (downloadFileName title)) = true.
Proof.
  unfold downloadFileName.
  rewrite list_ascii_of_append, forallb_app, replaceWhitespace_no_space.
  reflexivity.
Qed.
